(** * YAM (Yet Another Manager): library synchronisation and recommendation

    A shallow embedding of the renderer logic of
    [src/app/electron/main/main-renderer.js]: name normalisation
    ([removeSpecials], [cleanGameName], [getGameVersionFromName]), the
    frequency ranking [mostFrequent], the duplicate filter
    [getUnlistedGamesInArrayOfPath], the watched-thread synchronisation
    [syncDatabaseWatchedThreads], the update feed [getUpdatedThreads], the
    recommendation loop [recommendGames] and the add-by-URL flow
    [onAddRemoteGame].

    JavaScript strings are sequences of UTF-16 code units, arrays are lists,
    [undefined] is [None], and the asynchronous functions are state
    transformers over the two databases, the remote catalogue and the list of
    user-visible effects, with a thrown error (a rejected promise) as an
    explicit outcome. *)

From Stdlib Require Import String Ascii.
From Stdlib Require Import List NArith ZArith Bool Lia.
From Stdlib Require Import Sorting.Permutation Sorting.Sorted.
Import ListNotations.

Set Implicit Arguments.

(* ================================================================== *)
(** * Part I. The model                                                *)
(* ================================================================== *)

(** ** Strings *)

(** A UTF-16 code unit, and a JavaScript string. *)
Definition codeunit := N.
Definition jsstr := list codeunit.

(** An ASCII literal as a JavaScript string. *)
Definition lit (s : string) : jsstr := map N_of_ascii (list_ascii_of_string s).

(** [a === b] on strings. *)
Fixpoint streq (a b : jsstr) : bool :=
  match a, b with
  | [], [] => true
  | x :: a', y :: b' => (x =? y)%N && streq a' b'
  | _, _ => false
  end.

(** [a === b] where either side may be [undefined]. *)
Definition strictEq (a b : option jsstr) : bool :=
  match a, b with
  | Some x, Some y => streq x y
  | None, None => true
  | _, _ => false
  end.

(** [arr.includes(x)] on an array of strings. *)
Definition includes (arr : list jsstr) (x : jsstr) : bool := existsb (streq x) arr.

(** [s[i]]: the one-unit string at index [i], or [undefined]. *)
Definition charAt (s : jsstr) (i : nat) : option jsstr :=
  match nth_error s i with
  | Some c => Some [c]
  | None => None
  end.

(** [ToString] of an indexing result, as [res += s[i]] applies it. *)
Definition toStr (v : option jsstr) : jsstr :=
  match v with
  | Some s => s
  | None => lit "undefined"
  end.

(** ECMAScript [WhiteSpace] and [LineTerminator] code points, the set that
    [String.prototype.trim] strips. *)
Definition isLineTerminator (c : codeunit) : bool :=
  match c with
  | 10 | 13 | 8232 | 8233 => true
  | _ => false
  end%N.

Definition isWhiteSpace (c : codeunit) : bool :=
  match c with
  | 9 | 11 | 12 | 32 | 160 | 5760 | 8239 | 8287 | 12288 | 65279 => true
  | _ => isLineTerminator c || ((8192 <=? c) && (c <=? 8202))
  end%N.

Fixpoint trimStart (s : jsstr) : jsstr :=
  match s with
  | [] => []
  | c :: s' => if isWhiteSpace c then trimStart s' else s
  end.

Definition trimEnd (s : jsstr) : jsstr := rev (trimStart (rev s)).

Definition trim (s : jsstr) : jsstr := trimEnd (trimStart s).

(** [String.prototype.toLowerCase] and [toUpperCase] are built-ins of the
    engine: they follow the Unicode case tables, and need not preserve the
    length of a string. The model takes them as an interface. *)
Class StringBuiltins := {
  toLowerCase : jsstr -> jsstr;
  toUpperCase : jsstr -> jsstr
}.

(** The case conversions restricted to a repertoire on which they are
    written out here: Basic Latin, U+00DF (whose upper case is "SS") and
    U+0130 (whose lower case is "i" followed by U+0307). Closed examples use
    it on inputs inside this repertoire. *)
Definition lowerUnit (c : codeunit) : jsstr :=
  if ((65 <=? c) && (c <=? 90))%N then [(c + 32)%N]
  else if (c =? 304)%N then [105; 775]%N
  else [c].

Definition upperUnit (c : codeunit) : jsstr :=
  if ((97 <=? c) && (c <=? 122))%N then [(c - 32)%N]
  else if (c =? 223)%N then [83; 83]%N
  else [c].

Definition BasicLatin : StringBuiltins :=
  {| toLowerCase := fun s => flat_map lowerUnit s;
     toUpperCase := fun s => flat_map upperUnit s |}.

(** Simple (one unit to one unit) case mapping of Basic Latin. *)
Definition asciiLower (c : codeunit) : codeunit :=
  if ((65 <=? c) && (c <=? 90))%N then (c + 32)%N else c.

Definition asciiUpper (c : codeunit) : codeunit :=
  if ((97 <=? c) && (c <=? 122))%N then (c - 32)%N else c.

(** [s.indexOf(sub, from)], with [-1] for no occurrence. *)
Fixpoint startsWith (sub s : jsstr) : bool :=
  match sub, s with
  | [], _ => true
  | x :: sub', y :: s' => (x =? y)%N && startsWith sub' s'
  | _ :: _, [] => false
  end.

Fixpoint indexFrom (sub s : jsstr) (pos : nat) : Z :=
  if startsWith sub s then Z.of_nat pos
  else match s with
       | [] => (-1)%Z
       | _ :: s' => indexFrom sub s' (S pos)
       end.

Definition indexOf (s sub : jsstr) (from : Z) : Z :=
  let k := Z.to_nat (Z.min (Z.max from 0) (Z.of_nat (length s))) in
  indexFrom sub (skipn k s) k.

(** [s.includes(sub)]. *)
Definition strIncludes (s sub : jsstr) : bool := (0 <=? indexOf s sub 0)%Z.

(** [s.substr(start, len)]. *)
Definition substr (s : jsstr) (start len : Z) : jsstr :=
  let size := Z.of_nat (length s) in
  let st := if (start <? 0)%Z then Z.max (size + start) 0 else Z.min start size in
  let n := Z.min (Z.max len 0) (size - st) in
  firstn (Z.to_nat n) (skipn (Z.to_nat st) s).

(** ** Name normalisation *)

Section Normalisation.
Context {SB : StringBuiltins}.

(** One turn of the loop of [removeSpecials] at index [i]. *)
Definition removeSpecials_step (str lower upper : jsstr) (allowedChars : list jsstr)
    (res : jsstr) (i : nat) : jsstr :=
  match charAt lower i with
  | None => res (* not reached: i < lower.length *)
  | Some l =>
      if negb (strictEq (Some l) (charAt upper i))
         || streq (trim l) []
         || includes allowedChars l
      then res ++ toStr (charAt str i)
      else res
  end.

(** [removeSpecials(str, allowedChars)]; [None] is a missing argument. *)
Definition removeSpecials (str : jsstr) (allowedChars : option (list jsstr)) : jsstr :=
  let lower := toLowerCase str in
  let upper := toUpperCase str in
  let allowedChars := match allowedChars with Some a => a | None => [] end in
  let res :=
    fold_left (removeSpecials_step str lower upper allowedChars)
              (seq 0 (length lower)) [] in
  trim res.

(** [name.replace(rxTags, empty)], a global replacement of a bracketed
    group with lazy contents. [tagEnd s] is the number of units a match that
    has just read the opening bracket consumes from [s], closing bracket
    included: the lazy dot-star stops at the first closing bracket and
    crosses no line terminator. *)
Fixpoint tagEnd (s : jsstr) : option nat :=
  match s with
  | [] => None
  | c :: s' =>
      if (c =? 93)%N then Some 1
      else if isLineTerminator c then None
      else option_map S (tagEnd s')
  end.

Fixpoint replaceTags_from (skip : nat) (s : jsstr) : jsstr :=
  match s with
  | [] => []
  | c :: s' =>
      match skip with
      | S k => replaceTags_from k s'
      | O =>
          if (c =? 91)%N then
            match tagEnd s' with
            | Some n => replaceTags_from n s'
            | None => c :: replaceTags_from 0 s'
            end
          else c :: replaceTags_from 0 s'
      end
  end.

Definition replaceTags (s : jsstr) : jsstr := replaceTags_from 0 s.

(** The character class of [rxSpecials]: slash, backslash, question mark,
    percent, asterisk, colon, vertical bar, double quote, less-than and
    greater-than. *)
Definition isReserved (c : codeunit) : bool :=
  match c with
  | 47 | 92 | 63 | 37 | 42 | 58 | 124 | 34 | 60 | 62 => true
  | _ => false
  end%N.

(** [s.replace(rxSpecials, empty)] and [s.replace(rxSpecials, space)], both
    global replacements. *)
Definition stripReserved (s : jsstr) : jsstr := filter (fun c => negb (isReserved c)) s.

Definition blankReserved (s : jsstr) : jsstr :=
  map (fun c => if isReserved c then 32%N else c) s.

Definition cleanGameName_allowed : list jsstr :=
  map lit ["-"; "["; "]"; "."; "0"; "1"; "2"; "3"; "4"; "5"; "6"; "7"; "8"; "9"]%string.

Definition cleanGameName (name : jsstr) : jsstr :=
  let name := removeSpecials name (Some cleanGameName_allowed) in
  trim (stripReserved (replaceTags name)).

Definition PREFIX_VERSION : jsstr := lit "[V.".

Definition getGameVersionFromName (name : jsstr) : jsstr :=
  let version := lit "Unknown" in
  if strIncludes (toUpperCase name) PREFIX_VERSION then
    let startIndex :=
      (indexOf (toUpperCase name) PREFIX_VERSION 0 + Z.of_nat (length PREFIX_VERSION))%Z in
    let endIndex := indexOf name (lit "]") startIndex in
    substr name startIndex (endIndex - startIndex)
  else version.

End Normalisation.

(** ** Frequency ranking *)

(** A value stored in the counting object of [mostFrequent]: a Number, or
    the string that [+= 1] produces from a value that is not a Number (a
    function inherited from [Object.prototype]); [ToNumber] of such a string
    is [NaN]. *)
Inductive CountValue :=
| Count (n : Z)
| NotNumeric.

(** An ordinary object: its own properties, in order of creation. *)
Definition JsObject := list (jsstr * CountValue).

(** The property names every ordinary object inherits from
    [Object.prototype]. All are functions, except the accessor [__proto__]. *)
Definition objectPrototypeNames : list jsstr :=
  map lit ["constructor"; "__defineGetter__"; "__defineSetter__"; "hasOwnProperty";
           "__lookupGetter__"; "__lookupSetter__"; "isPrototypeOf";
           "propertyIsEnumerable"; "toString"; "valueOf"; "__proto__";
           "toLocaleString"]%string.

Definition hasOwn (d : JsObject) (k : jsstr) : bool :=
  existsb (fun p => streq k (fst p)) d.

(** [k in d]: own or inherited. *)
Definition hasProperty (d : JsObject) (k : jsstr) : bool :=
  hasOwn d k || includes objectPrototypeNames k.

(** [v + 1]. *)
Definition plusOne (v : CountValue) : CountValue :=
  match v with
  | Count n => Count (n + 1)
  | NotNumeric => NotNumeric
  end.

(** [d[k] += 1] for a key with [k in d]. An own property is updated in
    place. An inherited function plus one is a string, stored as a new own
    property; the setter of [__proto__] ignores a string. *)
Definition addOne (d : JsObject) (k : jsstr) : JsObject :=
  if hasOwn d k then
    map (fun p => if streq k (fst p) then (fst p, plusOne (snd p)) else p) d
  else if streq k (lit "__proto__") then d
  else d ++ [(k, NotNumeric)].

(** [d[k] = 1] for a key that [d] neither owns nor inherits. *)
Definition defineOne (d : JsObject) (k : jsstr) : JsObject := d ++ [(k, Count 1)].

Definition countStep (countDict : JsObject) (e : jsstr) : JsObject :=
  if hasProperty countDict e then addOne countDict e else defineOne countDict e.

Definition isDigit (c : codeunit) : bool := ((48 <=? c) && (c <=? 57))%N.

(** The value of a string of decimal digits. *)
Definition digitsValue (s : jsstr) : N :=
  fold_left (fun acc c => (10 * acc + (c - 48))%N) s 0%N.

(** An array index: the canonical decimal form of an integer below
    [2^32 - 1]. *)
Definition arrayIndex (k : jsstr) : option N :=
  match k with
  | [] => None
  | c :: rest =>
      if forallb isDigit k
         && ((negb (c =? 48)%N) || (length rest =? 0)%nat)
         && (digitsValue k <? 4294967295)%N
      then Some (digitsValue k)
      else None
  end.

Definition isArrayIndex (k : jsstr) : bool :=
  match arrayIndex k with Some _ => true | None => false end.

Definition indexValue (k : jsstr) : N :=
  match arrayIndex k with Some n => n | None => 0%N end.

(** Insertion sort, stable: [x] goes before the first element it does not
    have to follow. [Array.prototype.sort] is stable, and a stable sort by a
    consistent comparator has one result. *)
Section InsertionSort.
Variable A : Type.
Variable before : A -> A -> bool.

Fixpoint insertSorted (x : A) (l : list A) : list A :=
  match l with
  | [] => [x]
  | y :: l' => if before x y then x :: l else y :: insertSorted x l'
  end.

Definition stableSort (l : list A) : list A := fold_right insertSorted [] l.

End InsertionSort.

(** The order in which [Object.keys] lists own keys: array indices in
    ascending numeric order, then the other keys in order of creation. *)
Definition keyOrder (keys : list jsstr) : list jsstr :=
  stableSort (fun a b => (indexValue a <=? indexValue b)%N) (filter isArrayIndex keys)
  ++ filter (fun k => negb (isArrayIndex k)) keys.

Definition objectKeys (d : JsObject) : list jsstr := keyOrder (map fst d).

(** [d[key]] for an own key. *)
Definition getOwn (d : JsObject) (key : jsstr) : CountValue :=
  match find (fun p => streq key (fst p)) d with
  | Some p => snd p
  | None => NotNumeric
  end.

(** The comparator [second[1] - first[1]]. On counts that are Numbers it
    is consistent, and the engine's sort is then the stable sort by it,
    which [stableSort] gives. When a count is no Number (a tag that names
    an inherited property, see [hasProperty]) the comparator gives [NaN]
    and is not consistent: the order is then whatever the sorting algorithm
    of the engine makes of it. Reading [NaN] as [0] in an insertion sort,
    as is done here, gives one such order and not necessarily the engine's;
    the properties on the order are stated for [ordinaryName] inputs only,
    and on other inputs only the length of the result is used. *)
Definition compareItems (first second : jsstr * CountValue) : Z :=
  match snd second, snd first with
  | Count b, Count a => b - a
  | _, _ => 0
  end.

Definition sortItems (items : list (jsstr * CountValue)) : list (jsstr * CountValue) :=
  stableSort (fun first second => (compareItems first second <=? 0)%Z) items.

(** [arr.slice(0, end)]: a negative [end] counts from the end. *)
Definition slice0 (A : Type) (arr : list A) (end_ : Z) : list A :=
  let len := Z.of_nat (length arr) in
  let e := if (end_ <? 0)%Z then Z.max (len + end_) 0 else Z.min end_ len in
  firstn (Z.to_nat e) arr.

Definition mostFrequent (arr : list jsstr) (n : Z) : list jsstr :=
  let countDict := fold_left countStep arr [] in
  let items := map (fun key => (key, getOwn countDict key)) (objectKeys countDict) in
  let items := sortItems items in
  let min := Z.min n (Z.of_nat (length items)) in
  let returnElements := slice0 items min in
  map fst returnElements.

(** The ranking as the specification words it: the distinct values in order
    of first occurrence, each with its number of occurrences, sorted by
    descending count with a stable sort, cut to the first [min n distinct]
    values. *)
Definition distinct (items : list jsstr) : list jsstr :=
  fold_left (fun seen x => if includes seen x then seen else seen ++ [x]) items [].

Definition occurrences (x : jsstr) (items : list jsstr) : nat :=
  length (filter (streq x) items).

Definition rankDescending (counted : list (jsstr * nat)) : list (jsstr * nat) :=
  stableSort (fun a b => (snd b <=? snd a)%nat) counted.

Definition topN_spec (items : list jsstr) (n : nat) : list jsstr :=
  let counted := map (fun x => (x, occurrences x items)) (distinct items) in
  firstn (Nat.min n (length counted)) (map fst (rankDescending counted)).

(** ** Records *)

(** What the remote catalogue returns for a title. *)
Module GameInfo.
Record t := {
  id : Z;
  name : jsstr;
  author : jsstr;
  url : jsstr;
  version : jsstr;
  tags : list jsstr
}.
End GameInfo.

(** An installed title, as LibraryStore ([window.GameDB]) holds it. *)
Module GameInfoExtended.
Record t := {
  id : Z;
  name : jsstr;
  author : jsstr;
  url : jsstr;
  version : jsstr;
  tags : list jsstr;
  gameDirectory : jsstr;
  savePaths : list jsstr
}.

Definition set_version (v : jsstr) (g : t) : t :=
  {| id := id g; name := name g; author := author g; url := url g; version := v;
     tags := tags g; gameDirectory := gameDirectory g; savePaths := savePaths g |}.

Definition set_gameDirectory (d : jsstr) (g : t) : t :=
  {| id := id g; name := name g; author := author g; url := url g;
     version := version g; tags := tags g; gameDirectory := d;
     savePaths := savePaths g |}.
End GameInfoExtended.

(** A watched thread, as ThreadStore ([window.ThreadDB]) holds it. *)
Module ThreadInfo.
Record t := {
  id : Z;
  url : jsstr;
  name : jsstr;
  tags : list jsstr;
  updateAvailable : bool;
  markedAsRead : bool
}.

Definition set_updateAvailable (b : bool) (r : t) : t :=
  {| id := id r; url := url r; name := name r; tags := tags r;
     updateAvailable := b; markedAsRead := markedAsRead r |}.

Definition set_markedAsRead (b : bool) (r : t) : t :=
  {| id := id r; url := url r; name := name r; tags := tags r;
     updateAvailable := updateAvailable r; markedAsRead := b |}.
End ThreadInfo.

(** ** Outcomes, effects and the world *)

(** The settlement of a promise: a value, or a thrown error. *)
Inductive Outcome (A : Type) :=
| Ok (a : A)
| Throw (error : jsstr).
Arguments Ok {A} a.
Arguments Throw {A} error.

Inductive ToastArg :=
| NoArg
| GameName (gamename : jsstr)
| Number (number : nat).

(** What a run does besides changing the databases, in order. *)
Inductive Effect :=
| Toast (type key : string) (arg : ToastArg)
| LogWarn (url : jsstr)
| UrlLookup (url : jsstr)
| TagQuery (tags : list jsstr) (limit : nat)
| PaginatorReload.

(** The collaborators that live outside the file: the remote catalogue
    [window.F95], whose answers may change from call to call and which may
    throw, the converters [window.TI] and [window.GIE], and
    [window.API.getDirName]. *)
Class Platform := {
  CatalogState : Type;
  F95_getGameDataFromURL : jsstr -> CatalogState -> Outcome GameInfo.t * CatalogState;
  F95_getLatestUpdates :
    list jsstr -> string -> nat -> CatalogState -> Outcome (list GameInfo.t) * CatalogState;
  TI_convert : GameInfo.t -> ThreadInfo.t;
  GIE_convert : GameInfo.t -> GameInfoExtended.t;
  API_getDirName : jsstr -> jsstr
}.

(** A value read from a property: [undefined] or a Number. *)
Inductive JsValue :=
| JsUndefined
| JsNumber (z : Z).

(** [a !== b]. *)
Definition strictNotEqual (a b : JsValue) : bool :=
  match a, b with
  | JsUndefined, JsUndefined => false
  | JsNumber x, JsNumber y => negb (x =? y)%Z
  | _, _ => true
  end.

(** [arr.name] for a property name that is no index and no member of
    [Array.prototype]: only [length] is defined. *)
Definition arrayProperty (A : Type) (arr : list A) (name : string) : JsValue :=
  if String.eqb name "length" then JsNumber (Z.of_nat (length arr)) else JsUndefined.

(** Strings in ascending order of code units, the order of [<] on strings. *)
Fixpoint strLeb (a b : jsstr) : bool :=
  match a, b with
  | [], _ => true
  | _ :: _, [] => false
  | x :: a', y :: b' => (x <? y)%N || ((x =? y)%N && strLeb a' b')
  end.

Section Engine.
Context {SB : StringBuiltins} {PF : Platform}.

Record World := {
  GameDB : list GameInfoExtended.t;
  ThreadDB : list ThreadInfo.t;
  F95 : CatalogState;
  effects : list Effect
}.

(** An asynchronous function: a transformer of the world that settles. *)
Definition Async (A : Type) : Type := World -> Outcome A * World.

Definition ret (A : Type) (a : A) : Async A := fun w => (Ok a, w).

Definition bind (A B : Type) (m : Async A) (k : A -> Async B) : Async B :=
  fun w =>
    match m w with
    | (Ok a, w') => k a w'
    | (Throw e, w') => (Throw e, w')
    end.

Definition emit (e : Effect) : Async unit :=
  fun w => (Ok tt, {| GameDB := GameDB w; ThreadDB := ThreadDB w; F95 := F95 w;
                      effects := effects w ++ [e] |}).

Definition forEach (A : Type) (f : A -> Async unit) : list A -> Async unit :=
  fix go (l : list A) : Async unit :=
    match l with
    | [] => ret tt
    | x :: l' => bind (f x) (fun _ => go l')
    end.

End Engine.

Notation "x <- m ;; k" := (bind m (fun x => k))
  (at level 61, m at next level, right associativity).
Notation "m ;; k" := (bind m (fun _ => k))
  (at level 61, right associativity).

Section Stores.
Context {SB : StringBuiltins} {PF : Platform}.

(** [sendToastToUser(type, await window.API.translate(key, arg))]. *)
Definition sendToastToUser (type key : string) (arg : ToastArg) : Async unit :=
  emit (Toast type key arg).

(** Modelled from the spec: [window.GameDB.search], of LibraryStore's query
    contract; the database module is not part of the renderer. [search]
    returns the records that agree with the filter on every field the
    filter gives; the renderer filters on [id] or on nothing. *)
Definition GameDB_search (id : option Z) : Async (list GameInfoExtended.t) :=
  fun w =>
    (Ok (filter (fun g => match id with
                          | Some i => (GameInfoExtended.id g =? i)%Z
                          | None => true
                          end) (GameDB w)), w).

(** Modelled from the spec: [window.GameDB.insert] adds the record. *)
Definition GameDB_insert (g : GameInfoExtended.t) : Async unit :=
  fun w => (Ok tt, {| GameDB := GameDB w ++ [g]; ThreadDB := ThreadDB w; F95 := F95 w;
                      effects := effects w |}).

(** Modelled from the spec: the filter of [window.ThreadDB.search], a
    partial record; the renderer filters on [id], on the two flags, or on
    nothing. *)
Record ThreadFilter := {
  by_id : option Z;
  by_updateAvailable : option bool;
  by_markedAsRead : option bool
}.

Definition agrees (A : Type) (eqb : A -> A -> bool) (wanted : option A) (x : A) : bool :=
  match wanted with
  | Some v => eqb x v
  | None => true
  end.

Definition matchesThread (f : ThreadFilter) (r : ThreadInfo.t) : bool :=
  agrees Z.eqb (by_id f) (ThreadInfo.id r)
  && agrees Bool.eqb (by_updateAvailable f) (ThreadInfo.updateAvailable r)
  && agrees Bool.eqb (by_markedAsRead f) (ThreadInfo.markedAsRead r).

(** Modelled from the spec: the sort [{name: 1}], ascending by name. *)
Definition sortByName (l : list ThreadInfo.t) : list ThreadInfo.t :=
  stableSort (fun a b => strLeb (ThreadInfo.name a) (ThreadInfo.name b)) l.

(** Modelled from the spec: [window.ThreadDB.search] returns the records
    that agree with the filter, sorted by name when a sort is given. *)
Definition ThreadDB_search (f : ThreadFilter) (orderByName : bool)
  : Async (list ThreadInfo.t) :=
  fun w =>
    let found := filter (matchesThread f) (ThreadDB w) in
    (Ok (if orderByName then sortByName found else found), w).

Definition setThreadDB (db : list ThreadInfo.t) (w : World) : World :=
  {| GameDB := GameDB w; ThreadDB := db; F95 := F95 w; effects := effects w |}.

(** Modelled from the spec: [window.ThreadDB.insert] adds the record. *)
Definition ThreadDB_insert (r : ThreadInfo.t) : Async unit :=
  fun w => (Ok tt, setThreadDB (ThreadDB w ++ [r]) w).

(** Modelled from the spec: [window.ThreadDB.write] is an upsert, a full
    replacement of the record of the same [id], or an addition when there
    is none. *)
Definition upsert (r : ThreadInfo.t) (db : list ThreadInfo.t) : list ThreadInfo.t :=
  if existsb (fun t => (ThreadInfo.id t =? ThreadInfo.id r)%Z) db
  then map (fun t => if (ThreadInfo.id t =? ThreadInfo.id r)%Z then r else t) db
  else db ++ [r].

Definition ThreadDB_write (r : ThreadInfo.t) : Async unit :=
  fun w => (Ok tt, setThreadDB (upsert r (ThreadDB w)) w).

(** A call of the remote catalogue: it is recorded, and moves the
    catalogue to its next state. *)
Definition getGameDataFromURL (url : jsstr) : Async GameInfo.t :=
  fun w =>
    let '(r, c) := F95_getGameDataFromURL url (F95 w) in
    (r, {| GameDB := GameDB w; ThreadDB := ThreadDB w; F95 := c;
           effects := effects w ++ [UrlLookup url] |}).

Definition getLatestUpdates (tags : list jsstr) (sorting : string) (limit : nat)
  : Async (list GameInfo.t) :=
  fun w =>
    let '(r, c) := F95_getLatestUpdates tags sorting limit (F95 w) in
    (r, {| GameDB := GameDB w; ThreadDB := ThreadDB w; F95 := c;
           effects := effects w ++ [TagQuery tags limit] |}).

End Stores.

(** ** The application *)

Section Application.
Context {SB : StringBuiltins} {PF : Platform}.

(** *** Duplicate filter *)

Definition MAX_NUMBER_OF_PRESENT_GAMES_FOR_MESSAGES : nat := 5.

(** The comparison key of a name: [cleanGameName(n).replace(rxSpecials,
    space).trim().toUpperCase()]. *)
Definition listedKey (n : jsstr) : jsstr :=
  toUpperCase (trim (blankReserved (cleanGameName n))).

(** One turn of the loop over [paths]: the pair is [gameFolderPaths] and
    [alreadyPresentGames]. *)
Definition unlistedStep (listedGameNames : list jsstr)
    (acc : list jsstr * list jsstr) (path : jsstr) : list jsstr * list jsstr :=
  let '(gameFolderPaths, alreadyPresentGames) := acc in
  let unparsedName := API_getDirName path in
  let newGameName := trim (blankReserved (cleanGameName unparsedName)) in
  if negb (includes listedGameNames (toUpperCase newGameName))
  then (gameFolderPaths ++ [path], alreadyPresentGames)
  else (gameFolderPaths, alreadyPresentGames ++ [newGameName]).

Definition getUnlistedGamesInArrayOfPath (paths : list jsstr) : Async (list jsstr) :=
  games <- GameDB_search None ;;
  let listedGameNames := map (fun game => listedKey (GameInfoExtended.name game)) games in
  let '(gameFolderPaths, alreadyPresentGames) :=
    fold_left (unlistedStep listedGameNames) paths ([], []) in
  (if (length alreadyPresentGames <=? MAX_NUMBER_OF_PRESENT_GAMES_FOR_MESSAGES)%nat
   then forEach (fun gamename =>
                   sendToastToUser "warning" "MR game already listed" (GameName gamename))
                alreadyPresentGames
   else sendToastToUser "warning" "MR multiple duplicate games"
                        (Number (length alreadyPresentGames))) ;;
  ret gameFolderPaths.

(** The key as the specification words it: [cleanGameName], the reserved
    characters stripped once more, upper case. *)
Definition specKey (n : jsstr) : jsstr :=
  toUpperCase (stripReserved (cleanGameName n)).

(** *** Watched threads *)

Fixpoint takeDigits (s : jsstr) : jsstr :=
  match s with
  | c :: s' => if isDigit c then c :: takeDigits s' else []
  | [] => []
  end.

(** [url.match(rx)[0]] for the pattern of a dot followed by one or more
    digits: the first such dot with the longest run of digits after it. *)
Fixpoint matchDotDigits (url : jsstr) : option jsstr :=
  match url with
  | [] => None
  | c :: rest =>
      if (c =? 46)%N && (match rest with d :: _ => isDigit d | [] => false end)
      then Some (c :: takeDigits rest)
      else matchDotDigits rest
  end.

(** [s.replace(dot, empty)] with a string pattern: the first dot goes. *)
Fixpoint removeFirstDot (s : jsstr) : jsstr :=
  match s with
  | [] => []
  | c :: s' => if (c =? 46)%N then s' else c :: removeFirstDot s'
  end.

(** The Number (a double) nearest to a natural number, as the engine's
    conversion of a run of decimal digits gives it: exact below [2^53],
    from there on rounded to 53 significant bits, a tie going to the even
    neighbour. From [2^1024 - 2^970] on (runs of 309 digits and more) the
    engine gives [Infinity]; ids are integers here, so this model does not
    cover such runs. *)
Definition toNumber (n : N) : N :=
  if (n <? 2 ^ 53)%N then n
  else
    let e := (N.log2 n - 52)%N in
    let q := N.shiftr n e in
    let r := (n - N.shiftl q e)%N in
    let half := N.shiftl 1 (e - 1) in
    let q' := if (half <? r)%N || ((r =? half)%N && N.odd q) then (q + 1)%N else q in
    N.shiftl q' e.

(** [parseInt(s)] for a string that starts with a decimal digit: the
    digits up to the first unit that is none are read in base ten, and the
    value is a Number. The program hands it a match of the pattern without
    its dot, which is a run of digits and not empty; blanks, signs and
    prefixes of other bases, and the [NaN] of a string without digits,
    cannot occur there and are not modelled. *)
Definition parseInt (s : jsstr) : Z := Z.of_N (toNumber (digitsValue (takeDigits s))).

Definition extractThreadId (url : jsstr) : option Z :=
  match matchDotDigits url with
  | None => None
  | Some m => Some (parseInt (removeFirstDot m))
  end.

Definition idFilter (id : Z) : ThreadFilter :=
  {| by_id := Some id; by_updateAvailable := None; by_markedAsRead := None |}.

(** The body of the loop of [syncDatabaseWatchedThreads] for one URL. *)
Definition syncThread (url : jsstr) : Async unit :=
  match extractThreadId url with
  | None => emit (LogWarn url)
  | Some id =>
      thread <- ThreadDB_search (idFilter id) false ;;
      match thread with
      | [] =>
          gameInfo <- getGameDataFromURL url ;;
          let threadInfo := TI_convert gameInfo in
          ThreadDB_insert threadInfo
      | thread0 :: _ =>
          if streq (ThreadInfo.url thread0) url then ret tt
          else
            gameInfo <- getGameDataFromURL url ;;
            let threadInfo := TI_convert gameInfo in
            let threadInfo := ThreadInfo.set_updateAvailable true threadInfo in
            let threadInfo := ThreadInfo.set_markedAsRead false threadInfo in
            ThreadDB_write threadInfo
      end
  end.

(** The loop has no handler: [forEach] stops at the first throw. *)
Definition syncDatabaseWatchedThreads (urlList : list jsstr) : Async unit :=
  forEach syncThread urlList.

(** *** Update feed *)

Definition updatedFilter : ThreadFilter :=
  {| by_id := None; by_updateAvailable := Some true; by_markedAsRead := Some false |}.

Fixpoint excludeInstalled (threads result : list ThreadInfo.t) : Async (list ThreadInfo.t) :=
  match threads with
  | [] => ret result
  | thread :: rest =>
      searchResult <- GameDB_search (Some (ThreadInfo.id thread)) ;;
      excludeInstalled rest
        (if (length searchResult =? 0)%nat then result ++ [thread] else result)
  end.

Definition getUpdatedThreads : Async (list ThreadInfo.t) :=
  threads <- ThreadDB_search updatedFilter true ;;
  excludeInstalled threads [].

(** *** Recommendations *)

Definition MAX_TAGS : Z := 5.
Definition MAX_GAMES : nat := 10.
Definition MAX_FETCHED_GAMES : nat := 15.

Definition getMostFrequentsInstalledTags (n : Z) : Async (list jsstr) :=
  games <- GameDB_search None ;;
  let tags := fold_left (fun tags game => tags ++ GameInfoExtended.tags game) games [] in
  ret (mostFrequent tags n).

Definition allThreads : ThreadFilter :=
  {| by_id := None; by_updateAvailable := None; by_markedAsRead := None |}.

Definition getMostFrequentsThreadTags (n : Z) : Async (list jsstr) :=
  threads <- ThreadDB_search allThreads false ;;
  let tags := fold_left (fun tags thread => tags ++ ThreadInfo.tags thread) threads [] in
  ret (mostFrequent tags n).

(** The body of the inner loop over the fetched games. *)
Definition considerGame (installedGameIDs : list Z) (validGames : list GameInfo.t)
    (game : GameInfo.t) : list GameInfo.t :=
  if negb (existsb (Z.eqb (GameInfo.id game)) installedGameIDs)
     && negb (match find (fun g => (GameInfo.id g =? GameInfo.id game)%Z) validGames with
              | Some _ => true
              | None => false
              end)
     && (length validGames <? MAX_GAMES)%nat
  then validGames ++ [game]
  else validGames.

(** One turn of the do-while loop: query, select, [tags.pop()]. *)
Definition recommendTurn (installedGameIDs : list Z)
    (tags : list jsstr) (validGames : list GameInfo.t)
  : Async (list jsstr * list GameInfo.t) :=
  games <- getLatestUpdates tags "rating" MAX_FETCHED_GAMES ;;
  let validGames := fold_left (considerGame installedGameIDs) games validGames in
  ret (removelast tags, validGames).

(** The do-while loop, with a bound on the number of turns; [None] is a
    run that used up the bound. *)
Fixpoint recommendLoop (fuel : nat) (installedGameIDs : list Z)
    (tags : list jsstr) (validGames : list GameInfo.t)
  : Async (option (list GameInfo.t)) :=
  match fuel with
  | O => ret None
  | S fuel' =>
      st <- recommendTurn installedGameIDs tags validGames ;;
      let '(tags, validGames) := st in
      if (length validGames <? MAX_GAMES)%nat && (0 <? length tags)%nat
      then recommendLoop fuel' installedGameIDs tags validGames
      else ret (Some validGames)
  end.

(** The working tag set with which the loop starts. *)
Definition workingTags : Async (list jsstr) :=
  gameTags <- getMostFrequentsInstalledTags MAX_TAGS ;;
  threadTags <- getMostFrequentsThreadTags MAX_TAGS ;;
  let unified := gameTags ++ threadTags in
  ret (mostFrequent unified MAX_TAGS).

Definition recommendGames (fuel : nat) : Async (option (list GameInfoExtended.t)) :=
  tags <- workingTags ;;
  installedGames <- GameDB_search None ;;
  let installedGameIDs := map GameInfoExtended.id installedGames in
  validGames <- recommendLoop fuel installedGameIDs tags [] ;;
  ret (option_map (map GIE_convert) validGames).

(** *** Adding a game by URL *)

(** [selectGameDirectories(multipleSelection)]; [filePaths] is what the
    user picks in the dialog. *)
Definition selectGameDirectories (multipleSelection : bool) (filePaths : list jsstr)
  : Async (list jsstr) :=
  if (length filePaths =? 0)%nat then
    sendToastToUser "warning" "MR no directory selected" NoArg ;;
    ret []
  else
    gameFolderPaths <- getUnlistedGamesInArrayOfPath filePaths ;;
    if (length gameFolderPaths =? 0)%nat then ret [] else ret gameFolderPaths.

(** [onAddRemoteGame()]; [filePaths] and [urlInput] are the user's answers
    to the directory dialog and to the URL prompt. [if (!url) return] leaves
    on no answer and on the empty string. *)
Definition onAddRemoteGame (filePaths : list jsstr) (urlInput : option jsstr)
  : Async unit :=
  gameFolderPaths <- selectGameDirectories false filePaths ;;
  match gameFolderPaths with
  | [] => ret tt
  | gamePath :: _ =>
      match urlInput with
      | None => ret tt
      | Some url =>
          if streq url [] then ret tt
          else
            sendToastToUser "info" "MR adding game from url" NoArg ;;
            let unparsedName := API_getDirName gamePath in
            let version := getGameVersionFromName unparsedName in
            info <- getGameDataFromURL url ;;
            entry <- GameDB_search (Some (GameInfo.id info)) ;;
            if strictNotEqual (arrayProperty entry "lenght") (JsNumber 0) then
              sendToastToUser "warning" "MR game already listed"
                              (GameName (GameInfo.name info))
            else
              let converted := GIE_convert info in
              let converted := GameInfoExtended.set_version version converted in
              let converted := GameInfoExtended.set_gameDirectory gamePath converted in
              GameDB_insert converted ;;
              sendToastToUser "info" "MR game successfully added"
                              (GameName (GameInfoExtended.name converted)) ;;
              emit PaginatorReload
      end
  end.

End Application.

(** ** Definitions used in the statements *)

(** A string that does not start with a blank. *)
Definition headClean (s : jsstr) : Prop :=
  match s with
  | [] => True
  | c :: _ => isWhiteSpace c = false
  end.

(** A tag that is no property name of [Object.prototype]. *)
Definition ordinaryName (x : jsstr) : bool := negb (includes objectPrototypeNames x).

(** The counting object after the first loop, for ordinary names. *)
Definition tally (items : list jsstr) : JsObject :=
  map (fun x => (x, Count (Z.of_nat (occurrences x items)))) (distinct items).

(** The items handed to the sort, as counted pairs. *)
Definition counted (items : list jsstr) (keys : list jsstr) : list (jsstr * nat) :=
  map (fun x => (x, occurrences x items)) keys.

Definition asItem (p : jsstr * nat) : jsstr * CountValue := (fst p, Count (Z.of_nat (snd p))).

(** The tag sets of [m] successive turns that start from [tags]. *)
Fixpoint tagChain (m : nat) (tags : list jsstr) : list (list jsstr) :=
  match m with
  | O => []
  | S m' => tags :: tagChain m' (removelast tags)
  end.

(** What the inner loop maintains: at most [MAX_GAMES] games, none of them
    installed, no id twice. *)
Definition selection (installedGameIDs : list Z) (validGames : list GameInfo.t) : Prop :=
  length validGames <= MAX_GAMES
  /\ (forall g, In g validGames -> ~ In (GameInfo.id g) installedGameIDs)
  /\ NoDup (map GameInfo.id validGames).

(** The toasts about the paths left out. *)
Definition duplicateToasts (alreadyPresentGames : list jsstr) : list Effect :=
  if (length alreadyPresentGames <=? MAX_NUMBER_OF_PRESENT_GAMES_FOR_MESSAGES)%nat
  then map (fun gamename => Toast "warning" "MR game already listed" (GameName gamename))
           alreadyPresentGames
  else [Toast "warning" "MR multiple duplicate games" (Number (length alreadyPresentGames))].

(** An effect that only the insertion branch produces. *)
Definition announcesInsert (e : Effect) : bool :=
  match e with
  | Toast _ key _ => String.eqb key "MR game successfully added"
  | PaginatorReload => true
  | _ => false
  end.

Definition silent (es : list Effect) : Prop :=
  forallb (fun e => negb (announcesInsert e)) es = true.

Section StatementDefinitions.
Context {SB : StringBuiltins} {PF : Platform}.

(** The world with more effects recorded. *)
Definition addEffects (es : list Effect) (w : World) : World :=
  {| GameDB := GameDB w; ThreadDB := ThreadDB w; F95 := F95 w;
     effects := effects w ++ es |}.

Definition isListed (listedGameNames : list jsstr) (path : jsstr) : bool :=
  includes listedGameNames (listedKey (API_getDirName path)).

(** No record of LibraryStore has the id of the thread. *)
Definition notInstalled (w : World) (t : ThreadInfo.t) : bool :=
  negb (existsb (fun g => (GameInfoExtended.id g =? ThreadInfo.id t)%Z) (GameDB w)).

(** The world after a tag query answered with the catalogue state [c]. *)
Definition afterQuery (tags : list jsstr) (c : CatalogState) (w : World) : World :=
  {| GameDB := GameDB w; ThreadDB := ThreadDB w; F95 := c;
     effects := effects w ++ [TagQuery tags MAX_FETCHED_GAMES] |}.

End StatementDefinitions.

(** ** A small platform for closed examples *)

(** The last segment of a path written with slashes. *)
Fixpoint lastSegment (seen p : jsstr) : jsstr :=
  match p with
  | [] => seen
  | c :: p' => if (c =? 47)%N then lastSegment [] p' else lastSegment (seen ++ [c]) p'
  end.

Definition demoInfo (url : jsstr) : GameInfo.t :=
  {| GameInfo.id := match extractThreadId url with Some i => i | None => 0%Z end;
     GameInfo.name := url;
     GameInfo.author := lit "author";
     GameInfo.url := url;
     GameInfo.version := lit "1.0";
     GameInfo.tags := [] |}.

Definition demoThread (g : GameInfo.t) : ThreadInfo.t :=
  {| ThreadInfo.id := GameInfo.id g;
     ThreadInfo.url := GameInfo.url g;
     ThreadInfo.name := GameInfo.name g;
     ThreadInfo.tags := GameInfo.tags g;
     ThreadInfo.updateAvailable := false;
     ThreadInfo.markedAsRead := false |}.

Definition demoGame (g : GameInfo.t) : GameInfoExtended.t :=
  {| GameInfoExtended.id := GameInfo.id g;
     GameInfoExtended.name := GameInfo.name g;
     GameInfoExtended.author := GameInfo.author g;
     GameInfoExtended.url := GameInfo.url g;
     GameInfoExtended.version := GameInfo.version g;
     GameInfoExtended.tags := GameInfo.tags g;
     GameInfoExtended.gameDirectory := [];
     GameInfoExtended.savePaths := [] |}.

(** A catalogue that fails on the URLs of [down], answers every other URL
    with [demoInfo], and answers every tag query with the head of [shelf];
    its state counts the requests served. *)
Definition DemoPlatform (down : list jsstr) (shelf : list GameInfo.t) : Platform :=
  {| CatalogState := nat;
     F95_getGameDataFromURL := fun url served =>
       if includes down url then (Throw (lit "request failed"), S served)
       else (Ok (demoInfo url), S served);
     F95_getLatestUpdates := fun tags sorting limit served =>
       (Ok (firstn limit shelf), S served);
     TI_convert := demoThread;
     GIE_convert := demoGame;
     API_getDirName := lastSegment [] |}.

Definition emptyWorld (down : list jsstr) (shelf : list GameInfo.t)
  : @World (DemoPlatform down shelf) :=
  {| GameDB := []; ThreadDB := []; F95 := (0%nat : @CatalogState (DemoPlatform down shelf));
     effects := [] |}.

Definition installed (name : jsstr) (id : Z) : GameInfoExtended.t :=
  {| GameInfoExtended.id := id;
     GameInfoExtended.name := name;
     GameInfoExtended.author := lit "author";
     GameInfoExtended.url := [];
     GameInfoExtended.version := lit "Unknown";
     GameInfoExtended.tags := [];
     GameInfoExtended.gameDirectory := [];
     GameInfoExtended.savePaths := [] |}.

Definition u1 : jsstr := lit "https://site.example/threads/one.1/".
Definition u2 : jsstr := lit "https://site.example/threads/two.2/".
Definition u7 : jsstr := lit "https://site.example/threads/seven.7/".

Definition demoShelf : list GameInfo.t := map demoInfo [u1; u7; u2; u1].

Definition libraryWorld : @World (DemoPlatform [] []) :=
  {| GameDB := [installed (lit "Title: Part 2") 7]; ThreadDB := [];
     F95 := (0%nat : @CatalogState (DemoPlatform [] [])); effects := [] |}.

Definition shelfWorld : @World (DemoPlatform [] demoShelf) :=
  {| GameDB := [installed (lit "Seven") 7]; ThreadDB := [];
     F95 := (0%nat : @CatalogState (DemoPlatform [] demoShelf)); effects := [] |}.

(** The normalisation as the specification words it: a unit stays when its
    lower and upper case forms are the same, or when it is on the allow
    list; the result is trimmed. *)
Definition normalize_spec {SB : StringBuiltins} (raw : jsstr) (allowList : list jsstr)
  : jsstr :=
  trim (filter (fun c => streq (toLowerCase [c]) (toUpperCase [c]) || includes allowList [c])
               raw).

(** What [removeSpecials] keeps, for case conversions that act unit by unit
    as [lc] and [uc]: a cased unit, a blank, or a unit whose lower case is
    on the allow list. *)
Definition keptUnit (lc uc : codeunit -> codeunit) (allowed : list jsstr) (c : codeunit)
  : bool :=
  negb (lc c =? uc c)%N || isWhiteSpace (lc c) || includes allowed [lc c].

(** ** Further definitions for the name functions *)

(** A string in which no opening bracket starts a group that the pattern
    of [rxTags] matches. *)
Fixpoint noTag (t : jsstr) : Prop :=
  match t with
  | [] => True
  | c :: u => (c = 91%N -> tagEnd u = None) /\ noTag u
  end.

(** The games of an answer that are not installed and whose id was not
    seen before, each id once, in the order of the answer. *)
Fixpoint novelGames (installedGameIDs seen : list Z) (games : list GameInfo.t)
  : list GameInfo.t :=
  match games with
  | [] => []
  | g :: rest =>
      if existsb (Z.eqb (GameInfo.id g)) installedGameIDs
         || existsb (Z.eqb (GameInfo.id g)) seen
      then novelGames installedGameIDs seen rest
      else g :: novelGames installedGameIDs (GameInfo.id g :: seen) rest
  end.

(** ** Further functions on the watched threads *)

Section ThreadsMore.
Context {PF : Platform}.

(** [updatedThreads(watchedThreads)]: the synchronisation, then the update
    feed; the value is the list handed to [prepareThreadUpdatesTab]. *)
Definition updatedThreads (watchedThreads : list jsstr) : Async (list ThreadInfo.t) :=
  syncDatabaseWatchedThreads watchedThreads ;;
  getUpdatedThreads.

(** The record of ThreadStore that a search for the id of [url] finds first
    has this very URL: a sync of [url] would change nothing. *)
Definition synced (w : World) (url : jsstr) : Prop :=
  match extractThreadId url with
  | None => True
  | Some id =>
      exists t rest,
        filter (fun r => (ThreadInfo.id r =? id)%Z) (ThreadDB w) = t :: rest
        /\ ThreadInfo.url t = url
  end.

(** The warnings of a batch: one for each URL without an id. *)
Definition idWarnings (urls : list jsstr) : list Effect :=
  map LogWarn (filter (fun url => match extractThreadId url with
                                  | None => true
                                  | Some _ => false
                                  end) urls).

End ThreadsMore.

Section ThreadsPending.
Context {PF : Platform}.

(** ThreadStore has a record of the id, and each record of the id has an
    update that is not marked as read. *)
Definition pending (w : World) (i : Z) : Prop :=
  (exists t, In t (ThreadDB w) /\ ThreadInfo.id t = i)
  /\ forall t, In t (ThreadDB w) -> ThreadInfo.id t = i ->
       ThreadInfo.updateAvailable t = true /\ ThreadInfo.markedAsRead t = false.

End ThreadsPending.

(** A world for closed examples on the watched threads: two threads are
    stored under older URLs, and the second one is installed. *)
Definition watchedWorld : @World (DemoPlatform [] []) :=
  {| GameDB := [installed (lit "Seven") 7];
     ThreadDB := [demoThread (demoInfo (lit "https://site.example/threads/one-old.1/"));
                  demoThread (demoInfo (lit "https://site.example/threads/seven-old.7/"))];
     F95 := (0%nat : @CatalogState (DemoPlatform [] []));
     effects := [] |}.


(* ================================================================== *)
(** * Part II. Properties                                              *)
(* ================================================================== *)

(** ** Strings *)

Lemma streq_spec (a b : jsstr) : streq a b = true <-> a = b.
Proof.
  revert b; induction a as [|x a IH]; intros [|y b]; simpl;
    try (split; [discriminate | congruence]); try tauto.
  rewrite andb_true_iff, N.eqb_eq, IH. split.
  - intros [-> ->]; reflexivity.
  - intros E; inversion E; auto.
Qed.

Lemma streq_refl (a : jsstr) : streq a a = true.
Proof. apply streq_spec; reflexivity. Qed.

Lemma streq_false (a b : jsstr) : streq a b = false <-> a <> b.
Proof.
  rewrite <- streq_spec. destruct (streq a b); split; congruence.
Qed.

Lemma streq_sym (a b : jsstr) : streq a b = streq b a.
Proof.
  destruct (streq a b) eqn:E.
  - apply streq_spec in E; subst. symmetry; apply streq_refl.
  - symmetry. apply streq_false. apply streq_false in E. congruence.
Qed.

Lemma includes_In (arr : list jsstr) (x : jsstr) : includes arr x = true <-> In x arr.
Proof.
  unfold includes. rewrite existsb_exists. split.
  - intros [y [Hy E]]. apply streq_spec in E. subst; assumption.
  - intros H. exists x. split; [assumption | apply streq_refl].
Qed.

Lemma trimStart_headClean (s : jsstr) : headClean (trimStart s).
Proof.
  induction s as [|c s IH]; simpl; [exact I |].
  destruct (isWhiteSpace c) eqn:E; [exact IH | simpl; exact E].
Qed.

Lemma trimStart_fixed (s : jsstr) : headClean s -> trimStart s = s.
Proof.
  destruct s as [|c s]; simpl; [reflexivity |]. intros ->. reflexivity.
Qed.

Lemma trimStart_idempotent (s : jsstr) : trimStart (trimStart s) = trimStart s.
Proof. apply trimStart_fixed, trimStart_headClean. Qed.

Lemma trimStart_app (u v : jsstr) :
  trimStart (u ++ v) = if forallb isWhiteSpace u then trimStart v else trimStart u ++ v.
Proof.
  induction u as [|c u IH]; simpl; [reflexivity |].
  destruct (isWhiteSpace c); simpl; [exact IH | reflexivity].
Qed.

Lemma trimEnd_headClean (s : jsstr) : headClean s -> headClean (trimEnd s).
Proof.
  destruct s as [|c s]; simpl; [intros _; exact I |].
  intros Hc. unfold trimEnd. simpl. rewrite trimStart_app. simpl. rewrite Hc.
  destruct (forallb isWhiteSpace (rev s)); simpl.
  - exact Hc.
  - rewrite rev_app_distr. simpl. exact Hc.
Qed.

Lemma trimEnd_idempotent (s : jsstr) : trimEnd (trimEnd s) = trimEnd s.
Proof.
  unfold trimEnd. rewrite rev_involutive, trimStart_idempotent. reflexivity.
Qed.

Lemma trim_headClean (s : jsstr) : headClean (trim s).
Proof. apply trimEnd_headClean, trimStart_headClean. Qed.

Lemma trim_idempotent (s : jsstr) : trim (trim s) = trim s.
Proof.
  unfold trim at 1. rewrite trimStart_fixed by apply trim_headClean.
  unfold trim. apply trimEnd_idempotent.
Qed.

Lemma trimStart_In (c : codeunit) (s : jsstr) : In c (trimStart s) -> In c s.
Proof.
  induction s as [|x s IH]; simpl; [tauto |].
  destruct (isWhiteSpace x); simpl; tauto.
Qed.

Lemma trim_In (c : codeunit) (s : jsstr) : In c (trim s) -> In c s.
Proof.
  unfold trim, trimEnd. intros H.
  apply in_rev, trimStart_In in H. apply in_rev in H. apply trimStart_In; assumption.
Qed.

(** ** [removeSpecials] *)

Section RemoveSpecials.
Context {SB : StringBuiltins}.
Variables lc uc : codeunit -> codeunit.
Variable allowed : list jsstr.

Lemma charAt_middle (f : codeunit -> codeunit) (pre suf : jsstr) (c : codeunit) :
  charAt (map f (pre ++ c :: suf)) (length pre) = Some [f c].
Proof.
  unfold charAt. rewrite map_app. simpl.
  rewrite nth_error_app2 by (rewrite length_map; lia).
  rewrite length_map, Nat.sub_diag. reflexivity.
Qed.

Lemma trim_unit_empty (c : codeunit) : streq (trim [c]) [] = isWhiteSpace c.
Proof.
  unfold trim, trimEnd. simpl. destruct (isWhiteSpace c) eqn:E; simpl; [reflexivity |].
  rewrite E. reflexivity.
Qed.

Lemma removeSpecials_loop (suf pre res : jsstr) :
  fold_left
    (removeSpecials_step (pre ++ suf) (map lc (pre ++ suf)) (map uc (pre ++ suf)) allowed)
    (seq (length pre) (length suf)) res
  = res ++ filter (keptUnit lc uc allowed) suf.
Proof.
  revert pre res. induction suf as [|c suf IH]; intros pre res; simpl.
  - rewrite app_nil_r. reflexivity.
  - unfold removeSpecials_step at 2.
    rewrite !charAt_middle.
    replace (charAt (pre ++ c :: suf) (length pre)) with (Some [c])
      by (symmetry; rewrite <- (map_id (pre ++ c :: suf)); apply charAt_middle).
    rewrite trim_unit_empty. simpl strictEq. rewrite andb_true_r.
    fold (keptUnit lc uc allowed c).
    replace (pre ++ c :: suf) with ((pre ++ [c]) ++ suf)
      by (rewrite <- app_assoc; reflexivity).
    replace (S (length pre)) with (length (pre ++ [c]))
      by (rewrite length_app; simpl; lia).
    rewrite IH. destruct (keptUnit lc uc allowed c); simpl.
    + rewrite <- app_assoc. reflexivity.
    + reflexivity.
Qed.

Lemma removeSpecials_unitwise (str : jsstr) :
  toLowerCase str = map lc str ->
  toUpperCase str = map uc str ->
  removeSpecials str (Some allowed) = trim (filter (keptUnit lc uc allowed) str).
Proof.
  intros Hl Hu. unfold removeSpecials. rewrite Hl, Hu, length_map.
  f_equal. exact (removeSpecials_loop str [] []).
Qed.

End RemoveSpecials.

(** The functions on the examples of the specification. *)
Example cleanGameName_example :
  @cleanGameName BasicLatin (lit "Some Game [MOD][v.1.0]") = lit "Some Game".
Proof. reflexivity. Qed.

Example getGameVersionFromName_example :
  @getGameVersionFromName BasicLatin (lit "MyGame [v.1.2.3.4]") = lit "1.2.3.4"
  /\ @getGameVersionFromName BasicLatin (lit "MyGame") = lit "Unknown".
Proof. split; reflexivity. Qed.

Example extractThreadId_example :
  extractThreadId (lit "https://site.example/threads/cool-game.12345/") = Some 12345%Z
  /\ extractThreadId (lit "https://site.example/threads/cool-game/") = None.
Proof. split; reflexivity. Qed.

(** Above [2^53] the id is the nearest Number, not the number the digits
    write. *)
Example extractThreadId_rounds :
  extractThreadId (lit "https://site.example/threads/cool-game.9007199254740993/")
  = Some 9007199254740992%Z.
Proof. vm_compute. reflexivity. Qed.

(** The allow list in force: a missing argument is the empty list. *)
Lemma removeSpecials_default {SB : StringBuiltins} (str : jsstr) :
  removeSpecials str None = removeSpecials str (Some []).
Proof. reflexivity. Qed.

Lemma keptUnit_true (lc uc : codeunit -> codeunit) (allowed : list jsstr) (c : codeunit) :
  keptUnit lc uc allowed c = true <->
  lc c <> uc c \/ isWhiteSpace (lc c) = true \/ In [lc c] allowed.
Proof.
  unfold keptUnit. rewrite !orb_true_iff, negb_true_iff, N.eqb_neq, includes_In. tauto.
Qed.

(** C1, as the code has it. For a string on which the case conversions act
    code unit by code unit ([lc] and [uc]), [removeSpecials] keeps a unit
    exactly when its lower and upper case forms differ (a cased letter), or
    its lower case form is a blank, or its lower case form is on the allow
    list, and drops every other unit (digits and punctuation outside the
    allow list); so every unit of the output is cased, blank or allowed. The
    result is trimmed. *)
Theorem C1_removeSpecials_keeps_cased_blank_allowed
    {SB : StringBuiltins} (lc uc : codeunit -> codeunit)
    (str : jsstr) (allowedChars : option (list jsstr)) :
  toLowerCase str = map lc str ->
  toUpperCase str = map uc str ->
  let allowed := match allowedChars with Some a => a | None => [] end in
  removeSpecials str allowedChars = trim (filter (keptUnit lc uc allowed) str)
  /\ (forall c, In c (removeSpecials str allowedChars) ->
        lc c <> uc c \/ isWhiteSpace (lc c) = true \/ In [lc c] allowed)
  /\ trim (removeSpecials str allowedChars) = removeSpecials str allowedChars.
Proof.
  intros Hl Hu allowed.
  assert (E : removeSpecials str allowedChars
              = trim (filter (keptUnit lc uc allowed) str)).
  { destruct allowedChars as [a|]; [| rewrite removeSpecials_default];
      apply removeSpecials_unitwise; assumption. }
  split; [exact E | split].
  - intros c Hc. rewrite E in Hc. apply trim_In, filter_In in Hc.
    apply keptUnit_true, Hc.
  - rewrite E. apply trim_idempotent.
Qed.

(** C1 at the name "Title: Part 2" with the allow list of [cleanGameName],
    under the case mapping of Basic Latin: the colon goes, the letters, the
    blanks and the digit stay. *)
Lemma C1_witness :
  @toLowerCase BasicLatin (lit "Title: Part 2") = map asciiLower (lit "Title: Part 2")
  /\ @toUpperCase BasicLatin (lit "Title: Part 2") = map asciiUpper (lit "Title: Part 2")
  /\ @removeSpecials BasicLatin (lit "Title: Part 2") (Some cleanGameName_allowed)
     = trim (filter (keptUnit asciiLower asciiUpper cleanGameName_allowed)
                    (lit "Title: Part 2"))
  /\ @removeSpecials BasicLatin (lit "Title: Part 2") (Some cleanGameName_allowed)
     = lit "Title Part 2".
Proof.
  split; [reflexivity |]. split; [reflexivity |].
  destruct (@C1_removeSpecials_keeps_cased_blank_allowed BasicLatin asciiLower asciiUpper
              (lit "Title: Part 2") (Some cleanGameName_allowed)
              eq_refl eq_refl) as [E _].
  split; [exact E | reflexivity].
Defined.

(** C1 as the specification words it fails: on "a1" with an empty allow
    list the code keeps the cased letter "a", which is not on the allow
    list, and drops the digit "1", whose lower and upper case forms are the
    same; the wording keeps "1" and drops "a". *)
Lemma C1_counterexample :
  @removeSpecials BasicLatin (lit "a1") (Some []) = lit "a"
  /\ @normalize_spec BasicLatin (lit "a1") [] = lit "1"
  /\ @toLowerCase BasicLatin (lit "a") <> @toUpperCase BasicLatin (lit "a")
  /\ @toLowerCase BasicLatin (lit "1") = @toUpperCase BasicLatin (lit "1").
Proof.
  repeat split; try reflexivity. vm_compute. discriminate.
Qed.

(** C8 at the failing input: the one-unit string U+0130. Its lower case has
    two units, so the loop runs one index past the end of the input and
    appends the text of [undefined]; a second pass appends it once more. *)
Theorem C8_removeSpecials_not_idempotent_at_U0130 :
  @removeSpecials BasicLatin [304%N] None = 304%N :: lit "undefined"
  /\ @removeSpecials BasicLatin (@removeSpecials BasicLatin [304%N] None) None
     = 304%N :: lit "undefinedundefined".
Proof. split; reflexivity. Qed.

(** On strings whose case conversions act unit by unit, and stay so on
    every string made of their units, a second pass changes nothing: what
    breaks idempotence is only the reading past the end of the input. *)
Lemma removeSpecials_idempotent_unitwise
    {SB : StringBuiltins} (lc uc : codeunit -> codeunit)
    (str : jsstr) (allowed : list jsstr) :
  (forall t, (forall c, In c t -> In c str) ->
             toLowerCase t = map lc t /\ toUpperCase t = map uc t) ->
  removeSpecials (removeSpecials str (Some allowed)) (Some allowed)
  = removeSpecials str (Some allowed).
Proof.
  intros H.
  destruct (H str (fun c Hc => Hc)) as [Hl Hu].
  rewrite (removeSpecials_unitwise lc uc allowed str Hl Hu).
  set (r := trim (filter (keptUnit lc uc allowed) str)).
  assert (Hr : forall c, In c r -> In c str /\ keptUnit lc uc allowed c = true).
  { intros c Hc. apply trim_In, filter_In in Hc. exact Hc. }
  destruct (H r (fun c Hc => proj1 (Hr c Hc))) as [Hl' Hu'].
  rewrite (removeSpecials_unitwise lc uc allowed r Hl' Hu').
  replace (filter (keptUnit lc uc allowed) r) with r.
  - apply trim_idempotent.
  - symmetry. clear Hl' Hu'. induction r as [|c r IH]; simpl; [reflexivity |].
    rewrite (proj2 (Hr c (or_introl eq_refl))). f_equal. apply IH.
    intros x Hx. apply Hr. right; assumption.
Qed.

(** ** Stable insertion sort *)

Section SortFacts.
Variable A : Type.
Variable before : A -> A -> bool.

Lemma insertSorted_Permutation (x : A) (l : list A) :
  Permutation (x :: l) (insertSorted before x l).
Proof.
  induction l as [|y l IH]; simpl; [apply Permutation_refl |].
  destruct (before x y); [apply Permutation_refl |].
  eapply perm_trans; [apply perm_swap | apply perm_skip, IH].
Qed.

Lemma stableSort_Permutation (l : list A) : Permutation l (stableSort before l).
Proof.
  induction l as [|x l IH]; simpl; [apply perm_nil |].
  eapply perm_trans; [apply perm_skip, IH | apply insertSorted_Permutation].
Qed.

Lemma stableSort_In (x : A) (l : list A) : In x (stableSort before l) <-> In x l.
Proof.
  split; apply Permutation_in;
    [apply Permutation_sym |]; apply stableSort_Permutation.
Qed.

Lemma stableSort_length (l : list A) : length (stableSort before l) = length l.
Proof. symmetry. apply Permutation_length, stableSort_Permutation. Qed.

(** Stability: a class [P] of elements, none of which has to follow another
    element that comes before it, keeps its order. *)
Lemma insertSorted_filter (P : A -> bool) (x : A) (l : list A) :
  (forall y, In y l -> P x = true -> before x y = false -> P y = false) ->
  filter P (insertSorted before x l) = filter P (x :: l).
Proof.
  intros H. induction l as [|y l IH]; simpl; [reflexivity |].
  destruct (before x y) eqn:B; simpl; [reflexivity |].
  rewrite IH by (intros z Hz; apply H; right; assumption).
  simpl. destruct (P x) eqn:Px; [| reflexivity].
  rewrite (H y (or_introl eq_refl) eq_refl B). reflexivity.
Qed.

Lemma stableSort_filter (P : A -> bool) (l : list A) :
  (forall x y, P x = true -> before x y = false -> P y = false) ->
  filter P (stableSort before l) = filter P l.
Proof.
  intros H. induction l as [|x l IH]; simpl; [reflexivity |].
  rewrite insertSorted_filter.
  - simpl. rewrite IH. reflexivity.
  - intros y _ Px B. exact (H x y Px B).
Qed.

(** The output is in order, for a total and transitive [before]. *)
Hypothesis before_total : forall x y, before x y = true \/ before y x = true.
Hypothesis before_trans :
  forall x y z, before x y = true -> before y z = true -> before x z = true.

Lemma insertSorted_sorted (x : A) (l : list A) :
  StronglySorted (fun a b => before a b = true) l ->
  StronglySorted (fun a b => before a b = true) (insertSorted before x l).
Proof.
  induction 1 as [|y l Hl IH Hy]; simpl.
  - constructor; constructor.
  - destruct (before x y) eqn:B.
    + constructor; [constructor; assumption |].
      constructor; [assumption |].
      rewrite Forall_forall in *. intros z Hz. eapply before_trans; eauto.
    + constructor; [assumption |].
      rewrite Forall_forall in *. intros z Hz.
      apply (Permutation_in _ (Permutation_sym (insertSorted_Permutation x l))) in Hz.
      destruct Hz as [<- | Hz]; [| auto].
      destruct (before_total x y) as [C | C]; congruence.
Qed.

Lemma stableSort_sorted (l : list A) :
  StronglySorted (fun a b => before a b = true) (stableSort before l).
Proof.
  induction l as [|x l IH]; simpl; [constructor | apply insertSorted_sorted, IH].
Qed.

End SortFacts.

Lemma stableSort_map (A B : Type) (f : A -> B)
    (before : A -> A -> bool) (before' : B -> B -> bool) (l : list A) :
  (forall a b, before' (f a) (f b) = before a b) ->
  stableSort before' (map f l) = map f (stableSort before l).
Proof.
  intros H. induction l as [|x l IH]; simpl; [reflexivity |].
  rewrite IH. clear IH. induction (stableSort before l) as [|y t IHt]; simpl.
  - reflexivity.
  - rewrite H. destruct (before x y); simpl; [reflexivity | rewrite IHt; reflexivity].
Qed.

(** [rankDescending] sorts: it permutes its input, puts the counts in
    descending order, and leaves elements of equal count in the order in
    which they came. *)
Lemma rankDescending_Permutation (counted : list (jsstr * nat)) :
  Permutation counted (rankDescending counted).
Proof. apply stableSort_Permutation. Qed.

Lemma rankDescending_sorted (counted : list (jsstr * nat)) :
  StronglySorted (fun a b => snd b <= snd a) (rankDescending counted).
Proof.
  unfold rankDescending.
  eapply StronglySorted_ind with
    (P := StronglySorted (fun a b : jsstr * nat => snd b <= snd a));
    [constructor | |
     apply stableSort_sorted with (before := fun a b : jsstr * nat => (snd b <=? snd a)%nat)].
  - intros a l _ IH Ha. constructor; [assumption |].
    rewrite Forall_forall in *. intros z Hz. apply Nat.leb_le, Ha, Hz.
  - intros x y. rewrite !Nat.leb_le. lia.
  - intros x y z. rewrite !Nat.leb_le. lia.
Qed.

Lemma rankDescending_stable (counted : list (jsstr * nat)) (c : nat) :
  filter (fun p => (snd p =? c)%nat) (rankDescending counted)
  = filter (fun p => (snd p =? c)%nat) counted.
Proof.
  apply stableSort_filter. intros x y Px B.
  apply Nat.eqb_eq in Px. apply Nat.leb_gt in B. apply Nat.eqb_neq. lia.
Qed.

(** ** [mostFrequent] *)

Lemma distinct_snoc (items : list jsstr) (e : jsstr) :
  distinct (items ++ [e])
  = if includes (distinct items) e then distinct items else distinct items ++ [e].
Proof. unfold distinct. rewrite fold_left_app. reflexivity. Qed.

Lemma distinct_In (x : jsstr) (items : list jsstr) : In x (distinct items) <-> In x items.
Proof.
  revert x. induction items as [|e items IH] using rev_ind; intros x; [reflexivity |].
  rewrite distinct_snoc, in_app_iff. simpl.
  destruct (includes (distinct items) e) eqn:E.
  - apply includes_In in E. rewrite IH. rewrite IH in E.
    split; [tauto |]. intros [H | [<- | []]]; assumption.
  - rewrite in_app_iff, IH. simpl. tauto.
Qed.

Lemma occurrences_snoc (x e : jsstr) (items : list jsstr) :
  occurrences x (items ++ [e])
  = occurrences x items + (if streq x e then 1 else 0).
Proof.
  unfold occurrences. rewrite filter_app, length_app. simpl.
  destruct (streq x e); reflexivity.
Qed.

Lemma occurrences_absent (x : jsstr) (items : list jsstr) :
  ~ In x items -> occurrences x items = 0.
Proof.
  unfold occurrences. induction items as [|y items IH]; simpl; [reflexivity |].
  intros H. destruct (streq x y) eqn:E.
  - apply streq_spec in E. subst. tauto.
  - apply IH. tauto.
Qed.

Lemma hasOwn_tally (items : list jsstr) (e : jsstr) :
  hasOwn (tally items) e = includes (distinct items) e.
Proof.
  unfold hasOwn, tally, includes. induction (distinct items) as [|x l IH]; simpl;
    [reflexivity | rewrite IH; reflexivity].
Qed.

Lemma tally_snoc (items : list jsstr) (e : jsstr) :
  ordinaryName e = true ->
  countStep (tally items) e = tally (items ++ [e]).
Proof.
  intros Ho. unfold ordinaryName in Ho. apply negb_true_iff in Ho.
  replace (tally (items ++ [e]))
    with (map (fun x => (x, Count (Z.of_nat (occurrences x (items ++ [e])))))
              (if includes (distinct items) e then distinct items
               else distinct items ++ [e]))
    by (unfold tally; rewrite distinct_snoc; reflexivity).
  unfold countStep, hasProperty, addOne, defineOne.
  rewrite hasOwn_tally, Ho, orb_false_r.
  destruct (includes (distinct items) e) eqn:E.
  - unfold tally. rewrite map_map. apply map_ext. intros x. simpl.
    rewrite occurrences_snoc, (streq_sym x e).
    destruct (streq e x); simpl; do 2 f_equal; lia.
  - rewrite map_app. simpl. unfold tally. f_equal.
    + apply map_ext_in. intros x Hx. rewrite occurrences_snoc.
      destruct (streq x e) eqn:Ex.
      * apply streq_spec in Ex. subst.
        apply includes_In in Hx. congruence.
      * do 2 f_equal. lia.
    + rewrite occurrences_snoc, streq_refl, occurrences_absent; [reflexivity |].
      rewrite <- distinct_In, <- includes_In. congruence.
Qed.

Lemma countLoop_tally (items : list jsstr) :
  forallb ordinaryName items = true ->
  fold_left countStep items [] = tally items.
Proof.
  induction items as [|e items IH] using rev_ind; intros H; [reflexivity |].
  rewrite forallb_app in H. apply andb_true_iff in H. destruct H as [H1 H2].
  simpl in H2. rewrite andb_true_r in H2.
  rewrite fold_left_app. simpl. rewrite IH by assumption. apply tally_snoc, H2.
Qed.

Lemma getOwn_tally (items : list jsstr) (key : jsstr) :
  In key (distinct items) ->
  getOwn (tally items) key = Count (Z.of_nat (occurrences key items)).
Proof.
  unfold getOwn, tally. induction (distinct items) as [|x l IH]; simpl; [tauto |].
  intros H. destruct (streq key x) eqn:E.
  - apply streq_spec in E. subst. reflexivity.
  - apply IH. destruct H as [-> | H]; [| assumption].
    rewrite streq_refl in E. discriminate.
Qed.

Lemma keyOrder_In (x : jsstr) (keys : list jsstr) : In x (keyOrder keys) -> In x keys.
Proof.
  unfold keyOrder. rewrite in_app_iff, stableSort_In, !filter_In. tauto.
Qed.

Lemma filter_complement_length (A : Type) (f : A -> bool) (l : list A) :
  length (filter f l) + length (filter (fun x => negb (f x)) l) = length l.
Proof.
  induction l as [|x l IH]; simpl; [reflexivity |].
  destruct (f x); simpl; lia.
Qed.

Lemma keyOrder_length (keys : list jsstr) : length (keyOrder keys) = length keys.
Proof.
  unfold keyOrder. rewrite length_app, stableSort_length. apply filter_complement_length.
Qed.

Lemma keyOrder_plain (keys : list jsstr) :
  forallb (fun k => negb (isArrayIndex k)) keys = true -> keyOrder keys = keys.
Proof.
  intros H. unfold keyOrder. rewrite forallb_forall in H.
  replace (filter isArrayIndex keys) with (@nil jsstr).
  - simpl. induction keys as [|k keys IH]; simpl; [reflexivity |].
    rewrite (H k (or_introl eq_refl)). f_equal. apply IH.
    intros x Hx. apply H. right; assumption.
  - symmetry. induction keys as [|k keys IH]; simpl; [reflexivity |].
    pose proof (H k (or_introl eq_refl)) as Hk. apply negb_true_iff in Hk. rewrite Hk.
    apply IH. intros x Hx. apply H. right; assumption.
Qed.

Lemma slice0_firstn (A : Type) (arr : list A) (n : nat) :
  slice0 arr (Z.min (Z.of_nat n) (Z.of_nat (length arr)))
  = firstn (Nat.min n (length arr)) arr.
Proof.
  unfold slice0.
  destruct (Z.ltb_spec (Z.min (Z.of_nat n) (Z.of_nat (length arr))) 0) as [H | H]; [lia |].
  f_equal. lia.
Qed.

Lemma sortItems_counted (l : list (jsstr * nat)) :
  sortItems (map asItem l) = map asItem (rankDescending l).
Proof.
  apply stableSort_map. intros a b. unfold compareItems, asItem. simpl.
  destruct (Nat.leb_spec (snd b) (snd a)); [apply Z.leb_le | apply Z.leb_gt]; lia.
Qed.

Lemma mostFrequent_ordinary (items : list jsstr) (n : nat) :
  forallb ordinaryName items = true ->
  mostFrequent items (Z.of_nat n)
  = firstn (Nat.min n (length (distinct items)))
           (map fst (rankDescending (counted items (keyOrder (distinct items))))).
Proof.
  intros H. unfold mostFrequent. rewrite countLoop_tally by assumption.
  unfold objectKeys.
  replace (map fst (tally items)) with (distinct items)
    by (unfold tally; rewrite map_map; simpl; symmetry; apply map_id).
  replace (map (fun key => (key, getOwn (tally items) key)) (keyOrder (distinct items)))
    with (map asItem (counted items (keyOrder (distinct items)))).
  - rewrite sortItems_counted, slice0_firstn.
    rewrite length_map. unfold rankDescending at 1. rewrite stableSort_length.
    unfold counted at 1. rewrite length_map, keyOrder_length.
    rewrite <- firstn_map, map_map. reflexivity.
  - unfold counted. rewrite map_map. apply map_ext_in. intros x Hx.
    unfold asItem. simpl. rewrite getOwn_tally; [reflexivity |].
    apply keyOrder_In, Hx.
Qed.

Lemma forallb_distinct (f : jsstr -> bool) (items : list jsstr) :
  forallb f items = true -> forallb f (distinct items) = true.
Proof.
  rewrite !forallb_forall. intros H x Hx. apply H, distinct_In, Hx.
Qed.

(** C9, as the code has it. For tags that are no property names of
    [Object.prototype] and a count [n], [mostFrequent] counts the
    occurrences of each distinct value, lists the values in the key order of
    the counting object (array-index keys in ascending numeric order first,
    then the other values in order of first occurrence), sorts them by
    descending count with a stable sort, so that ties keep that key order,
    and returns the first [min n distinct] values. When no value is an array
    index the key order is the order of first occurrence, and the result is
    the ranking of the specification. In particular the ranking of a, b, a,
    c, b, a cut at 2 is a, b. *)
Theorem C9_mostFrequent_ranks_in_key_order (items : list jsstr) (n : nat) :
  forallb ordinaryName items = true ->
  let listed := counted items (keyOrder (distinct items)) in
  let ranked := rankDescending listed in
  mostFrequent items (Z.of_nat n)
  = firstn (Nat.min n (length (distinct items))) (map fst ranked)
  /\ Permutation listed ranked
  /\ StronglySorted (fun a b => snd b <= snd a) ranked
  /\ (forall c, filter (fun p => (snd p =? c)%nat) ranked
                = filter (fun p => (snd p =? c)%nat) listed)
  /\ (forallb (fun k => negb (isArrayIndex k)) items = true ->
      mostFrequent items (Z.of_nat n) = topN_spec items n)
  /\ mostFrequent (map lit ["a"; "b"; "a"; "c"; "b"; "a"]%string) 2
     = map lit ["a"; "b"]%string.
Proof.
  intros H listed ranked.
  split; [apply mostFrequent_ordinary, H |].
  split; [apply rankDescending_Permutation |].
  split; [apply rankDescending_sorted |].
  split; [intros c; apply rankDescending_stable |].
  split; [| reflexivity].
  intros Hidx. rewrite mostFrequent_ordinary by assumption.
  rewrite keyOrder_plain by (apply forallb_distinct, Hidx).
  unfold topN_spec, counted. rewrite length_map. reflexivity.
Qed.

(** C9 at the example of the specification. *)
Lemma C9_witness :
  forallb ordinaryName (map lit ["a"; "b"; "a"; "c"; "b"; "a"]%string) = true
  /\ mostFrequent (map lit ["a"; "b"; "a"; "c"; "b"; "a"]%string) (Z.of_nat 2)
     = topN_spec (map lit ["a"; "b"; "a"; "c"; "b"; "a"]%string) 2.
Proof.
  split; [reflexivity |].
  destruct (C9_mostFrequent_ranks_in_key_order
              (map lit ["a"; "b"; "a"; "c"; "b"; "a"]%string) 2 eq_refl)
    as (_ & _ & _ & _ & H & _).
  apply H. reflexivity.
Defined.

(** C9 as the specification words it fails: of the two tags "b" and "1",
    each seen once, "b" comes first in the input, and the code returns "1"
    first, because the counting object lists its array-index keys before its
    other keys. *)
Lemma C9_counterexample :
  mostFrequent (map lit ["b"; "1"]%string) 2 = map lit ["1"; "b"]%string
  /\ topN_spec (map lit ["b"; "1"]%string) 2 = map lit ["b"; "1"]%string.
Proof. split; reflexivity. Qed.

(** A tag that names a function of [Object.prototype] is found by [in]
    before it was ever counted: its count is no Number, it ties with every
    other tag, and it can be returned ahead of a tag seen more often. *)
Remark mostFrequent_inherited_name :
  mostFrequent (map lit ["constructor"; "a"; "a"]%string) 1
  = map lit ["constructor"]%string.
Proof. reflexivity. Qed.

(** ** Effects *)

Section EffectFacts.
Context {PF : Platform}.

Lemma addEffects_nil (w : World) : addEffects [] w = w.
Proof. destruct w. unfold addEffects. simpl. rewrite app_nil_r. reflexivity. Qed.

Lemma addEffects_add (es1 es2 : list Effect) (w : World) :
  addEffects es2 (addEffects es1 w) = addEffects (es1 ++ es2) w.
Proof. unfold addEffects. simpl. rewrite app_assoc. reflexivity. Qed.

Lemma forEach_toast (type key : string) (names : list jsstr) (w : World) :
  forEach (fun gamename => sendToastToUser type key (GameName gamename)) names w
  = (Ok tt, addEffects (map (fun gamename => Toast type key (GameName gamename)) names) w).
Proof.
  revert w. induction names as [|x names IH]; intros w; simpl.
  - unfold ret. rewrite addEffects_nil. reflexivity.
  - unfold bind, sendToastToUser, emit. fold (addEffects [Toast type key (GameName x)] w).
    rewrite IH, addEffects_add. reflexivity.
Qed.

End EffectFacts.

(** ** The duplicate filter *)

Lemma filter_all (A : Type) (l : list A) : filter (fun _ => true) l = l.
Proof. induction l as [|x l IH]; simpl; [reflexivity | rewrite IH; reflexivity]. Qed.

Section Unlisted.
Context {SB : StringBuiltins} {PF : Platform}.

Lemma cleanGameName_unreserved (n : jsstr) (c : codeunit) :
  In c (cleanGameName n) -> isReserved c = false.
Proof.
  unfold cleanGameName, stripReserved. intros H.
  apply trim_In, filter_In in H. apply negb_true_iff, H.
Qed.

Lemma blankReserved_fixed (s : jsstr) :
  (forall c, In c s -> isReserved c = false) -> blankReserved s = s.
Proof.
  intros H. unfold blankReserved. rewrite <- (map_id s) at 2.
  apply map_ext_in. intros c Hc. rewrite (H c Hc). reflexivity.
Qed.

Lemma stripReserved_fixed (s : jsstr) :
  (forall c, In c s -> isReserved c = false) -> stripReserved s = s.
Proof.
  unfold stripReserved. induction s as [|c s IH]; intros H; simpl; [reflexivity |].
  rewrite (H c (or_introl eq_refl)). simpl. f_equal. apply IH.
  intros x Hx. apply H. right; assumption.
Qed.

Lemma cleanGameName_trimmed (n : jsstr) : trim (cleanGameName n) = cleanGameName n.
Proof. unfold cleanGameName. apply trim_idempotent. Qed.

(** The key the code computes is the key the specification describes. *)
Lemma listedKey_specKey (n : jsstr) : listedKey n = specKey n.
Proof.
  unfold listedKey, specKey.
  rewrite blankReserved_fixed, stripReserved_fixed
    by apply cleanGameName_unreserved.
  rewrite cleanGameName_trimmed. reflexivity.
Qed.

Lemma unlisted_loop (listedGameNames paths gameFolderPaths alreadyPresentGames : list jsstr) :
  fold_left (unlistedStep listedGameNames) paths (gameFolderPaths, alreadyPresentGames)
  = (gameFolderPaths ++ filter (fun p => negb (isListed listedGameNames p)) paths,
     alreadyPresentGames
     ++ map (fun p => trim (blankReserved (cleanGameName (API_getDirName p))))
            (filter (isListed listedGameNames) paths)).
Proof.
  revert gameFolderPaths alreadyPresentGames.
  induction paths as [|p paths IH]; intros gf ap; simpl.
  - rewrite !app_nil_r. reflexivity.
  - fold (listedKey (API_getDirName p)). fold (isListed listedGameNames p).
    destruct (isListed listedGameNames p); simpl; rewrite IH, <- app_assoc; reflexivity.
Qed.

Lemma getUnlisted_run (paths : list jsstr) (w : World) :
  let listedGameNames := map (fun g => listedKey (GameInfoExtended.name g)) (GameDB w) in
  getUnlistedGamesInArrayOfPath paths w
  = (Ok (filter (fun p => negb (isListed listedGameNames p)) paths),
     addEffects
       (duplicateToasts
          (map (fun p => trim (blankReserved (cleanGameName (API_getDirName p))))
               (filter (isListed listedGameNames) paths)))
       w).
Proof.
  intros names. unfold getUnlistedGamesInArrayOfPath, bind at 1, GameDB_search.
  rewrite (filter_all (GameDB w)).
  fold names. rewrite unlisted_loop. simpl app. unfold duplicateToasts.
  set (dup := map _ (filter (isListed names) paths)).
  destruct (length dup <=? MAX_NUMBER_OF_PRESENT_GAMES_FOR_MESSAGES)%nat.
  - unfold bind. rewrite forEach_toast. reflexivity.
  - reflexivity.
Qed.

End Unlisted.

(** C7. [getUnlistedGamesInArrayOfPath] returns, in input order, the paths
    whose key is the key of no installed record, where the key of a name is
    [cleanGameName] of it with the reserved characters stripped again, in
    upper case, and keys are compared by string equality; it leaves the
    library as it is. With an installed record named "Title: Part 2", a
    candidate whose directory is named "Title: Part 2 [v.2]" is left out. *)
Theorem C7_getUnlisted_excludes_equal_keys
    {SB : StringBuiltins} {PF : Platform} (paths : list jsstr) (w : World) :
  let installedKeys := map (fun g => specKey (GameInfoExtended.name g)) (GameDB w) in
  let excluded := fun p => includes installedKeys (specKey (API_getDirName p)) in
  fst (getUnlistedGamesInArrayOfPath paths w)
  = Ok (filter (fun p => negb (excluded p)) paths)
  /\ (forall p, excluded p = true <->
        exists g, In g (GameDB w)
                  /\ specKey (API_getDirName p) = specKey (GameInfoExtended.name g))
  /\ GameDB (snd (getUnlistedGamesInArrayOfPath paths w)) = GameDB w
  /\ (forall (p : jsstr) (g : GameInfoExtended.t) (w0 : World),
        API_getDirName p = lit "Title: Part 2 [v.2]" ->
        GameInfoExtended.name g = lit "Title: Part 2" ->
        GameDB w0 = [g] ->
        fst (@getUnlistedGamesInArrayOfPath BasicLatin PF [p] w0) = Ok []).
Proof.
  intros installedKeys excluded.
  assert (K : forall (S' : StringBuiltins) (w' : World),
             map (fun g => @listedKey S' (GameInfoExtended.name g)) (GameDB w')
             = map (fun g => @specKey S' (GameInfoExtended.name g)) (GameDB w')).
  { intros S' w'. apply map_ext. intros g. apply listedKey_specKey. }
  repeat split.
  - rewrite getUnlisted_run. simpl. f_equal. apply filter_ext. intros p.
    unfold isListed. rewrite K, listedKey_specKey. reflexivity.
  - unfold excluded, installedKeys. rewrite includes_In, in_map_iff.
    intros [g [E Hg]]. exists g. split; [assumption | congruence].
  - unfold excluded, installedKeys. rewrite includes_In, in_map_iff.
    intros [g [Hg E]]. exists g. split; [congruence | assumption].
  - rewrite getUnlisted_run. reflexivity.
  - intros p g w0 Hp Hg Hw. rewrite getUnlisted_run. simpl. rewrite Hw. simpl.
    unfold isListed. simpl. rewrite Hp, Hg. reflexivity.
Qed.

(** C7 on the demonstration platform: the library holds "Title: Part 2",
    and the candidate path ends in "Title: Part 2 [v.2]". *)
Lemma C7_witness :
  @API_getDirName (DemoPlatform [] []) (lit "/games/Title: Part 2 [v.2]")
  = lit "Title: Part 2 [v.2]"
  /\ fst (@getUnlistedGamesInArrayOfPath BasicLatin (DemoPlatform [] [])
            [lit "/games/Title: Part 2 [v.2]"] libraryWorld) = Ok [].
Proof.
  split; [reflexivity |].
  destruct (@C7_getUnlisted_excludes_equal_keys BasicLatin (DemoPlatform [] [])
              [] libraryWorld) as (_ & _ & _ & H).
  apply (H (lit "/games/Title: Part 2 [v.2]") (installed (lit "Title: Part 2") 7)
           libraryWorld eq_refl eq_refl eq_refl).
Defined.

(** ** Watched threads *)

Section Sync.
Context {PF : Platform}.

Lemma idFilter_matches (id : Z) (r : ThreadInfo.t) :
  matchesThread (idFilter id) r = (ThreadInfo.id r =? id)%Z.
Proof. unfold matchesThread, idFilter, agrees. simpl. rewrite !andb_true_r. reflexivity. Qed.

Lemma ThreadDB_search_id (id : Z) (w : World) :
  ThreadDB_search (idFilter id) false w
  = (Ok (filter (fun t => (ThreadInfo.id t =? id)%Z) (ThreadDB w)), w).
Proof.
  unfold ThreadDB_search. do 2 f_equal. apply filter_ext, idFilter_matches.
Qed.

(** A throw while one URL is processed ends the whole batch: the URLs
    after it are not looked at. *)
Lemma sync_stops_at_throw (url : jsstr) (rest : list jsstr) (w : World) (e : jsstr) :
  fst (syncThread url w) = Throw e ->
  syncDatabaseWatchedThreads (url :: rest) w = (Throw e, snd (syncThread url w)).
Proof.
  intros H. unfold syncDatabaseWatchedThreads. simpl. unfold bind.
  destruct (syncThread url w) as [o w']. simpl in H. subst. reflexivity.
Qed.

Lemma upsert_same_id (r t' : ThreadInfo.t) (db : list ThreadInfo.t) :
  In t' (upsert r db) -> ThreadInfo.id t' = ThreadInfo.id r -> t' = r.
Proof.
  unfold upsert. destruct (existsb _ db) eqn:E.
  - rewrite in_map_iff. intros [t [Ht _]] Hid.
    destruct (Z.eqb_spec (ThreadInfo.id t) (ThreadInfo.id r)); congruence.
  - rewrite in_app_iff. intros [H | [<- | []]] Hid; [| reflexivity].
    exfalso. assert (X : existsb (fun t => (ThreadInfo.id t =? ThreadInfo.id r)%Z) db = true).
    { apply existsb_exists. exists t'. split; [assumption | apply Z.eqb_eq, Hid]. }
    congruence.
Qed.

Lemma upsert_In (r : ThreadInfo.t) (db : list ThreadInfo.t) : In r (upsert r db).
Proof.
  unfold upsert. destruct (existsb _ db) eqn:E.
  - apply existsb_exists in E. destruct E as [t [Ht E]].
    apply in_map_iff. exists t. rewrite E. tauto.
  - apply in_app_iff. right. left. reflexivity.
Qed.

Section Cases.
Variables (url : jsstr) (id : Z) (w : World).
Hypothesis Hid : extractThreadId url = Some id.

Lemma syncThread_absent (g : GameInfo.t) (c : CatalogState) :
  filter (fun t => (ThreadInfo.id t =? id)%Z) (ThreadDB w) = [] ->
  F95_getGameDataFromURL url (F95 w) = (Ok g, c) ->
  syncThread url w
  = (Ok tt, {| GameDB := GameDB w; ThreadDB := ThreadDB w ++ [TI_convert g]; F95 := c;
               effects := effects w ++ [UrlLookup url] |}).
Proof.
  intros Hs Hf. unfold syncThread. rewrite Hid. unfold bind at 1.
  rewrite ThreadDB_search_id, Hs. unfold bind, getGameDataFromURL. rewrite Hf.
  reflexivity.
Qed.

Lemma syncThread_unchanged (t : ThreadInfo.t) (rest : list ThreadInfo.t) :
  filter (fun t => (ThreadInfo.id t =? id)%Z) (ThreadDB w) = t :: rest ->
  ThreadInfo.url t = url ->
  syncThread url w = (Ok tt, w).
Proof.
  intros Hs Hu. unfold syncThread. rewrite Hid. unfold bind at 1.
  rewrite ThreadDB_search_id, Hs, Hu, streq_refl. reflexivity.
Qed.

Lemma syncThread_changed (t : ThreadInfo.t) (rest : list ThreadInfo.t)
    (g : GameInfo.t) (c : CatalogState) :
  filter (fun t => (ThreadInfo.id t =? id)%Z) (ThreadDB w) = t :: rest ->
  ThreadInfo.url t <> url ->
  F95_getGameDataFromURL url (F95 w) = (Ok g, c) ->
  syncThread url w
  = (Ok tt,
     {| GameDB := GameDB w;
        ThreadDB := upsert (ThreadInfo.set_markedAsRead false
                              (ThreadInfo.set_updateAvailable true (TI_convert g)))
                           (ThreadDB w);
        F95 := c;
        effects := effects w ++ [UrlLookup url] |}).
Proof.
  intros Hs Hu Hf. unfold syncThread. rewrite Hid. unfold bind at 1.
  rewrite ThreadDB_search_id, Hs. apply streq_false in Hu. rewrite Hu.
  unfold bind, getGameDataFromURL. rewrite Hf. reflexivity.
Qed.

End Cases.

Lemma forEach_app (A : Type) (f : A -> Async unit) (l1 l2 : list A) (w : World) :
  forEach f (l1 ++ l2) w
  = match forEach f l1 w with
    | (Ok _, w1) => forEach f l2 w1
    | (Throw e, w1) => (Throw e, w1)
    end.
Proof.
  revert w. induction l1 as [|x l1 IH]; intros w; simpl.
  - reflexivity.
  - unfold bind. destruct (f x w) as [[[] | e] w1]; [apply IH | reflexivity].
Qed.

End Sync.

(** C2 at the failing input: a batch of two new URLs, with the catalogue
    failing on the first. The run ends with the error of the first URL, the
    second URL is never looked up and ThreadStore stays empty, though the
    second URL alone is inserted without error. *)
Theorem C2_sync_aborts_at_first_failure :
  fst (@syncDatabaseWatchedThreads (DemoPlatform [u1] []) [u1; u2] (emptyWorld [u1] []))
  = Throw (lit "request failed")
  /\ effects (snd (@syncDatabaseWatchedThreads (DemoPlatform [u1] []) [u1; u2]
                     (emptyWorld [u1] [])))
     = [UrlLookup u1]
  /\ ThreadDB (snd (@syncDatabaseWatchedThreads (DemoPlatform [u1] []) [u1; u2]
                      (emptyWorld [u1] [])))
     = []
  /\ fst (@syncDatabaseWatchedThreads (DemoPlatform [u1] []) [u2] (emptyWorld [u1] []))
     = Ok tt
  /\ map ThreadInfo.url
         (ThreadDB (snd (@syncDatabaseWatchedThreads (DemoPlatform [u1] []) [u2]
                           (emptyWorld [u1] []))))
     = [u2].
Proof. repeat split; reflexivity. Qed.

(** C3. [syncDatabaseWatchedThreads] treats a URL of its batch that has an
    extractable id, once the URLs before it are processed without a
    throw, in one of three ways, on the records of that id in ThreadStore
    at that point, and goes on with the URLs after it. None: it fetches
    the metadata by the URL and inserts the converted record; every record
    of ThreadStore that was not there before has [updateAvailable] false,
    the converter's default. One whose [url] is the incoming URL: nothing
    changes and nothing is fetched. One whose [url] differs: it fetches the
    metadata by the new URL, sets [updateAvailable] to true and
    [markedAsRead] to false on the converted record and hands it to
    [write], which replaces the record of its id. *)
Theorem C3_sync_three_cases_for_each_url
    {PF : Platform} (before after : list jsstr) (url : jsstr) (id : Z) (w w1 : World) :
  extractThreadId url = Some id ->
  (forall g, ThreadInfo.updateAvailable (TI_convert g) = false) ->
  syncDatabaseWatchedThreads before w = (Ok tt, w1) ->
  let stored := filter (fun t => (ThreadInfo.id t =? id)%Z) (ThreadDB w1) in
  (stored = [] ->
   forall g c, F95_getGameDataFromURL url (F95 w1) = (Ok g, c) ->
     syncDatabaseWatchedThreads (before ++ url :: after) w
     = syncDatabaseWatchedThreads after
         {| GameDB := GameDB w1; ThreadDB := ThreadDB w1 ++ [TI_convert g]; F95 := c;
            effects := effects w1 ++ [UrlLookup url] |}
     /\ forall t', In t' (ThreadDB w1 ++ [TI_convert g]) ->
           In t' (ThreadDB w1) \/ ThreadInfo.updateAvailable t' = false)
  /\ (forall t rest, stored = t :: rest -> ThreadInfo.url t = url ->
        syncDatabaseWatchedThreads (before ++ url :: after) w
        = syncDatabaseWatchedThreads after w1)
  /\ (forall t rest, stored = t :: rest -> ThreadInfo.url t <> url ->
      forall g c, F95_getGameDataFromURL url (F95 w1) = (Ok g, c) ->
        let r := ThreadInfo.set_markedAsRead false
                   (ThreadInfo.set_updateAvailable true (TI_convert g)) in
        syncDatabaseWatchedThreads (before ++ url :: after) w
        = syncDatabaseWatchedThreads after
            {| GameDB := GameDB w1; ThreadDB := upsert r (ThreadDB w1); F95 := c;
               effects := effects w1 ++ [UrlLookup url] |}
        /\ ThreadInfo.updateAvailable r = true
        /\ ThreadInfo.markedAsRead r = false
        /\ In r (upsert r (ThreadDB w1))
        /\ (ThreadInfo.id (TI_convert g) = id ->
            forall t', In t' (upsert r (ThreadDB w1)) -> ThreadInfo.id t' = id -> t' = r)).
Proof.
  intros Hid Hdef Hb stored.
  assert (Hstep : syncDatabaseWatchedThreads (before ++ url :: after) w
                  = match syncThread url w1 with
                    | (Ok _, w2) => syncDatabaseWatchedThreads after w2
                    | (Throw e, w2) => (Throw e, w2)
                    end).
  { unfold syncDatabaseWatchedThreads in *. rewrite forEach_app, Hb. reflexivity. }
  split; [| split].
  - intros Hs g c Hf. rewrite Hstep, (@syncThread_absent PF url id w1 Hid g c Hs Hf).
    split; [reflexivity |].
    intros t' Hin. apply in_app_iff in Hin. destruct Hin as [Hin | [<- | []]].
    + left. exact Hin.
    + right. apply Hdef.
  - intros t rest Hs Hu.
    rewrite Hstep, (@syncThread_unchanged PF url id w1 Hid t rest Hs Hu). reflexivity.
  - intros t rest Hs Hu g c Hf r.
    rewrite Hstep, (@syncThread_changed PF url id w1 Hid t rest g c Hs Hu Hf). fold r.
    split; [reflexivity |]. split; [reflexivity |]. split; [reflexivity |].
    split; [apply upsert_In |].
    intros Hg t' Hin Ht'. apply (upsert_same_id r t' (ThreadDB w1) Hin).
    unfold r. simpl. congruence.
Qed.

(** C3 on the demonstration platform, for the second URL of a batch of
    three new URLs: the batch goes on with the third URL from the world in
    which the record of the second one is inserted. *)
Lemma C3_witness :
  extractThreadId u1 = Some 1%Z
  /\ (forall g, ThreadInfo.updateAvailable (demoThread g) = false)
  /\ @syncDatabaseWatchedThreads (DemoPlatform [] []) ([u7] ++ u1 :: [u2]) (emptyWorld [] [])
     = @syncDatabaseWatchedThreads (DemoPlatform [] []) [u2]
         {| GameDB := [];
            ThreadDB := [demoThread (demoInfo u7)] ++ [demoThread (demoInfo u1)];
            F95 := (2%nat : @CatalogState (DemoPlatform [] []));
            effects := [UrlLookup u7] ++ [UrlLookup u1] |}
  /\ map ThreadInfo.url
         (ThreadDB (snd (@syncDatabaseWatchedThreads (DemoPlatform [] [])
                           ([u7] ++ u1 :: [u2]) (emptyWorld [] []))))
     = [u7; u1; u2].
Proof.
  split; [reflexivity |]. split; [reflexivity |]. split; [| reflexivity].
  destruct (@C3_sync_three_cases_for_each_url (DemoPlatform [] []) [u7] [u2] u1 1%Z
              (emptyWorld [] [])
              (snd (@syncDatabaseWatchedThreads (DemoPlatform [] []) [u7] (emptyWorld [] [])))
              eq_refl (fun g => eq_refl) eq_refl) as [H _].
  exact (proj1 (H eq_refl (demoInfo u1) 2%nat eq_refl)).
Defined.

(** ** The update feed *)

Lemma strLeb_total (a b : jsstr) : strLeb a b = true \/ strLeb b a = true.
Proof.
  revert b. induction a as [|x a IH]; intros [|y b]; simpl; auto.
  destruct (N.lt_trichotomy x y) as [H | [H | H]].
  - left. apply orb_true_iff. left. apply N.ltb_lt, H.
  - subst. rewrite N.ltb_irrefl, N.eqb_refl. simpl. apply IH.
  - right. apply orb_true_iff. left. apply N.ltb_lt, H.
Qed.

Lemma strLeb_trans (a b c : jsstr) :
  strLeb a b = true -> strLeb b c = true -> strLeb a c = true.
Proof.
  revert b c. induction a as [|x a IH]; intros [|y b] [|z c]; simpl; auto;
    try discriminate.
  rewrite !orb_true_iff, !andb_true_iff, !N.ltb_lt, !N.eqb_eq.
  intros [H1 | [H1 H1']] [H2 | [H2 H2']]; subst.
  - left. lia.
  - left. assumption.
  - left. assumption.
  - right. split; [reflexivity | eapply IH; eauto].
Qed.

Lemma StronglySorted_filter (A : Type) (R : A -> A -> Prop) (f : A -> bool) (l : list A) :
  StronglySorted R l -> StronglySorted R (filter f l).
Proof.
  induction 1 as [|x l Hl IH Hx]; simpl; [constructor |].
  destruct (f x); [| assumption].
  constructor; [assumption |].
  rewrite Forall_forall in *. intros y Hy. apply Hx. apply filter_In in Hy. tauto.
Qed.

Lemma no_match_length (A : Type) (f : A -> bool) (l : list A) :
  (length (filter f l) =? 0)%nat = negb (existsb f l).
Proof.
  induction l as [|x l IH]; simpl; [reflexivity |].
  destruct (f x); simpl; [reflexivity | exact IH].
Qed.

Section Feed.
Context {PF : Platform}.

Lemma notInstalled_spec (w : World) (t : ThreadInfo.t) :
  notInstalled w t = true <->
  ~ In (ThreadInfo.id t) (map GameInfoExtended.id (GameDB w)).
Proof.
  unfold notInstalled. rewrite negb_true_iff, <- not_true_iff_false, existsb_exists,
    in_map_iff.
  split; intros H [g Hg]; apply H; exists g.
  - destruct Hg as [E Hg]. split; [assumption | apply Z.eqb_eq, E].
  - destruct Hg as [Hg E]. split; [apply Z.eqb_eq, E | assumption].
Qed.

Lemma excludeInstalled_run (threads result : list ThreadInfo.t) (w : World) :
  excludeInstalled threads result w
  = (Ok (result ++ filter (notInstalled w) threads), w).
Proof.
  revert result. induction threads as [|t threads IH]; intros result; simpl.
  - unfold ret. rewrite app_nil_r. reflexivity.
  - unfold bind, GameDB_search. rewrite IH, no_match_length.
    fold (notInstalled w t). destruct (notInstalled w t); simpl.
    + rewrite <- app_assoc. reflexivity.
    + reflexivity.
Qed.

Lemma updatedFilter_matches (t : ThreadInfo.t) :
  matchesThread updatedFilter t = true <->
  ThreadInfo.updateAvailable t = true /\ ThreadInfo.markedAsRead t = false.
Proof.
  unfold matchesThread, updatedFilter, agrees. simpl.
  destruct (ThreadInfo.updateAvailable t), (ThreadInfo.markedAsRead t); simpl;
    intuition congruence.
Qed.

End Feed.

(** C6. [getUpdatedThreads] returns the answer of the query for
    [updateAvailable] true and [markedAsRead] false in ascending order of
    name, without the records whose id is the id of a record of
    LibraryStore and otherwise in the order of that answer. So it returns
    exactly the records of ThreadStore with an update that is not marked as
    read and whose id is not in LibraryStore, in ascending order of name,
    and changes nothing. *)
Theorem C6_getUpdatedThreads_pending_not_installed {PF : Platform} (w : World) :
  let answer := sortByName (filter (matchesThread updatedFilter) (ThreadDB w)) in
  let result := filter (notInstalled w) answer in
  getUpdatedThreads w = (Ok result, w)
  /\ (forall t, In t result <->
        In t (ThreadDB w)
        /\ ThreadInfo.updateAvailable t = true
        /\ ThreadInfo.markedAsRead t = false
        /\ ~ In (ThreadInfo.id t) (map GameInfoExtended.id (GameDB w)))
  /\ StronglySorted (fun a b => strLeb (ThreadInfo.name a) (ThreadInfo.name b) = true)
                    result.
Proof.
  intros answer result. split; [| split].
  - unfold getUpdatedThreads, bind, ThreadDB_search. rewrite excludeInstalled_run.
    reflexivity.
  - intros t. unfold result, answer, sortByName.
    rewrite filter_In, stableSort_In, filter_In, notInstalled_spec, updatedFilter_matches.
    tauto.
  - apply StronglySorted_filter.
    apply stableSort_sorted
      with (before := fun a b => strLeb (ThreadInfo.name a) (ThreadInfo.name b)).
    + intros x y. apply strLeb_total.
    + intros x y z. apply strLeb_trans.
Qed.

(** ** Recommendations *)

Lemma mostFrequent_length (arr : list jsstr) (n : Z) :
  (0 <= n)%Z -> length (mostFrequent arr n) <= Z.to_nat n.
Proof.
  intros Hn. unfold mostFrequent, slice0. rewrite length_map, length_firstn.
  set (len := Z.of_nat (length _)).
  destruct (Z.ltb_spec (Z.min n len) 0); lia.
Qed.

Lemma removelast_length (A : Type) (l : list A) :
  length (removelast l) = length l - 1.
Proof.
  induction l as [|x l IH]; [reflexivity |].
  destruct l as [|y l]; [reflexivity |].
  change (removelast (x :: y :: l)) with (x :: removelast (y :: l)).
  simpl length in *. rewrite IH. lia.
Qed.

Lemma NoDup_snoc (A : Type) (l : list A) (x : A) :
  NoDup l -> ~ In x l -> NoDup (l ++ [x]).
Proof.
  intros Hl Hx. apply (Permutation_NoDup (l := x :: l)).
  - apply Permutation_cons_append.
  - constructor; assumption.
Qed.

Lemma considerGame_selection (installedGameIDs : list Z)
    (validGames : list GameInfo.t) (game : GameInfo.t) :
  selection installedGameIDs validGames ->
  selection installedGameIDs (considerGame installedGameIDs validGames game).
Proof.
  intros (Hlen & Hnew & Hnd). unfold considerGame.
  destruct (existsb (Z.eqb (GameInfo.id game)) installedGameIDs) eqn:E1; simpl;
    [repeat split; assumption |].
  destruct (find _ validGames) eqn:E2; simpl; [repeat split; assumption |].
  destruct (Nat.ltb_spec (length validGames) MAX_GAMES) as [E3 | E3];
    [| repeat split; assumption].
  repeat split.
  - rewrite length_app. simpl. lia.
  - intros g Hg Hin. apply in_app_iff in Hg. destruct Hg as [Hg | [<- | []]].
    + exact (Hnew g Hg Hin).
    + assert (X : existsb (Z.eqb (GameInfo.id game)) installedGameIDs = true).
      { apply existsb_exists. exists (GameInfo.id game). split; [assumption |].
        apply Z.eqb_refl. }
      congruence.
  - rewrite map_app. simpl. apply NoDup_snoc; [assumption |].
    rewrite in_map_iff. intros [g [Eg Hg]].
    apply (find_none _ _ E2) in Hg. apply Z.eqb_neq in Hg. congruence.
Qed.

Lemma fold_considerGame_selection (installedGameIDs : list Z)
    (games validGames : list GameInfo.t) :
  selection installedGameIDs validGames ->
  selection installedGameIDs (fold_left (considerGame installedGameIDs) games validGames).
Proof.
  revert validGames. induction games as [|g games IH]; intros v Hv; simpl;
    [assumption | apply IH, considerGame_selection, Hv].
Qed.

Lemma tagChain_shrinks (m : nat) (tags : list jsstr) (i : nat) (a b : list jsstr) :
  m <= Nat.max 1 (length tags) ->
  nth_error (tagChain m tags) i = Some a ->
  nth_error (tagChain m tags) (S i) = Some b ->
  b = removelast a /\ length b + 1 = length a.
Proof.
  revert tags i. induction m as [|m IH]; intros tags i Hm Ha Hb;
    [destruct i; discriminate |].
  simpl in Ha, Hb. destruct m as [|m]; [destruct i; discriminate |].
  assert (Hlen : 2 <= length tags) by lia.
  destruct i as [|i].
  - simpl in Ha, Hb. inversion Ha; inversion Hb; subst.
    split; [reflexivity |]. rewrite removelast_length. lia.
  - simpl in Ha. apply (IH (removelast tags) i); [| assumption | assumption].
    rewrite removelast_length. lia.
Qed.

Section Recommend.
Context {PF : Platform}.

Lemma workingTags_run (w : World) :
  exists tags, workingTags w = (Ok tags, w) /\ length tags <= 5.
Proof.
  eexists. split.
  - reflexivity.
  - apply (mostFrequent_length _ (n := MAX_TAGS)). unfold MAX_TAGS. lia.
Qed.

Lemma recommendLoop_step (fuel : nat) (installedGameIDs : list Z)
    (tags : list jsstr) (validGames : list GameInfo.t) (w : World) :
  recommendLoop (S fuel) installedGameIDs tags validGames w
  = match F95_getLatestUpdates tags "rating" MAX_FETCHED_GAMES (F95 w) with
    | (Ok games, c) =>
        let v := fold_left (considerGame installedGameIDs) games validGames in
        if (length v <? MAX_GAMES)%nat && (0 <? length (removelast tags))%nat
        then recommendLoop fuel installedGameIDs (removelast tags) v (afterQuery tags c w)
        else (Ok (Some v), afterQuery tags c w)
    | (Throw e, c) => (Throw e, afterQuery tags c w)
    end.
Proof.
  simpl recommendLoop. unfold bind, recommendTurn, bind, getLatestUpdates, ret.
  destruct (F95_getLatestUpdates tags "rating" MAX_FETCHED_GAMES (F95 w)) as [[games | e] c];
    [| reflexivity].
  cbv zeta.
  destruct ((length (fold_left (considerGame installedGameIDs) games validGames)
             <? MAX_GAMES)%nat && (0 <? length (removelast tags))%nat);
    reflexivity.
Qed.

Lemma recommendLoop_run (fuel : nat) (installedGameIDs : list Z) :
  forall (tags : list jsstr) (validGames : list GameInfo.t) (w : World),
    Nat.max 1 (length tags) <= fuel ->
    selection installedGameIDs validGames ->
    let run := recommendLoop fuel installedGameIDs tags validGames w in
    exists m,
      1 <= m /\ m <= Nat.max 1 (length tags)
      /\ effects (snd run)
         = effects w ++ map (fun t => TagQuery t MAX_FETCHED_GAMES) (tagChain m tags)
      /\ GameDB (snd run) = GameDB w
      /\ ((exists e, fst run = Throw e)
          \/ (exists v, fst run = Ok (Some v) /\ selection installedGameIDs v)).
Proof.
  induction fuel as [|fuel IH]; intros tags validGames w Hfuel Hsel run; [lia |].
  unfold run. clear run. rewrite recommendLoop_step.
  destruct (F95_getLatestUpdates tags "rating" MAX_FETCHED_GAMES (F95 w)) as [[games | e] c].
  - cbv zeta.
    set (v := fold_left (considerGame installedGameIDs) games validGames).
    assert (Hv : selection installedGameIDs v)
      by (apply fold_considerGame_selection, Hsel).
    destruct ((length v <? MAX_GAMES)%nat && (0 <? length (removelast tags))%nat) eqn:C.
    + apply andb_true_iff in C. destruct C as [_ C]. apply Nat.ltb_lt in C.
      rewrite removelast_length in C.
      destruct (IH (removelast tags) v (afterQuery tags c w)) as (m & H1 & H2 & H3 & H4 & H5).
      * rewrite removelast_length. lia.
      * exact Hv.
      * exists (S m). rewrite removelast_length in H2.
        split; [lia |]. split; [lia |]. split; [| split; [exact H4 | exact H5]].
        rewrite H3. simpl. rewrite <- app_assoc. reflexivity.
    + exists 1. split; [lia |]. split; [lia |].
      split; [reflexivity |]. split; [reflexivity |]. right. exists v. auto.
  - exists 1. split; [lia |]. split; [lia |].
    split; [reflexivity |]. split; [reflexivity |]. left. exists e. reflexivity.
Qed.

Lemma selection_nil (installedGameIDs : list Z) : selection installedGameIDs [].
Proof.
  repeat split; simpl; [unfold MAX_GAMES; lia | tauto | constructor].
Qed.

(** The run of [recommendGames], for any bound of at least five turns. *)
Lemma recommendGames_run (fuel : nat) (w : World) :
  let installedGameIDs := map GameInfoExtended.id (GameDB w) in
  let run := recommendGames (5 + fuel) w in
  exists tags m,
    workingTags w = (Ok tags, w)
    /\ length tags <= 5
    /\ 1 <= m /\ m <= Nat.max 1 (length tags)
    /\ effects (snd run)
       = effects w ++ map (fun t => TagQuery t MAX_FETCHED_GAMES) (tagChain m tags)
    /\ ((exists e, fst run = Throw e)
        \/ (exists v, fst run = Ok (Some (map GIE_convert v))
                      /\ selection installedGameIDs v)).
Proof.
  intros ids run. destruct (workingTags_run w) as (tags & Ht & Hlen).
  exists tags.
  destruct (@recommendLoop_run (5 + fuel) ids tags [] w) as (m & H1 & H2 & H3 & _ & H5).
  { lia. }
  { apply selection_nil. }
  exists m. repeat (split; [assumption |]).
  assert (R : run = match recommendLoop (5 + fuel) ids tags [] w with
                    | (Ok a, w') => (Ok (option_map (map GIE_convert) a), w')
                    | (Throw e, w') => (Throw e, w')
                    end).
  { unfold run, recommendGames. unfold bind at 1. rewrite Ht.
    unfold bind at 1, GameDB_search. rewrite filter_all. fold ids.
    unfold bind. destruct (recommendLoop (5 + fuel) ids tags [] w) as [[a | e] w'];
      reflexivity. }
  rewrite R. clear R.
  destruct (recommendLoop (5 + fuel) ids tags [] w) as [o w'].
  cbn [fst snd] in H3, H5.
  destruct H5 as [[e He] | [v [Hv Hsel]]]; subst o; cbn [fst snd option_map].
  - split; [assumption |]. left. exists e. reflexivity.
  - split; [assumption |]. right. exists v. auto.
Qed.

End Recommend.

(** C4, as the code has it. [recommendGames] settles, with a value or with
    the error of a catalogue query, for every state of the stores and every
    behaviour of the catalogue, within five turns of its loop: the working
    tag set starts with at most 5 tags, every turn makes one query with the
    current tag set and then removes its last tag, so that a tag set that is
    not empty shrinks by exactly one (an empty one, which only the first
    turn can meet, stays empty), and every turn after the first starts with
    a tag set that is not empty. The turns are the tag queries recorded:
    there are [m] of them, between 1 and 5, hence at most 6. *)
Theorem C4_recommendGames_settles_within_five_turns
    {PF : Platform} (fuel : nat) (w : World) :
  let run := recommendGames (5 + fuel) w in
  exists tags m,
    workingTags w = (Ok tags, w)
    /\ length tags <= 5
    /\ 1 <= m /\ m <= Nat.max 1 (length tags) /\ m <= 5
    /\ effects (snd run)
       = effects w ++ map (fun t => TagQuery t MAX_FETCHED_GAMES) (tagChain m tags)
    /\ (forall i a b,
          nth_error (tagChain m tags) i = Some a ->
          nth_error (tagChain m tags) (S i) = Some b ->
          b = removelast a /\ length b + 1 = length a)
    /\ ((exists e, fst run = Throw e) \/ (exists l, fst run = Ok (Some l))).
Proof.
  intros run.
  destruct (recommendGames_run fuel w) as (tags & m & Ht & Hlen & H1 & H2 & H3 & H4).
  exists tags, m.
  split; [assumption |]. split; [assumption |]. split; [assumption |].
  split; [assumption |]. split; [lia |]. split; [assumption |]. split.
  - intros i a b. apply tagChain_shrinks, H2.
  - destruct H4 as [[e He] | [v [Hv _]]]; [left | right]; eauto.
Qed.

(** C4 as the specification words it fails: with empty stores the working
    tag set is empty, the loop makes its one turn with it, and the turn
    leaves it empty: the tag set did not shrink by one. *)
Lemma C4_counterexample :
  fst (@workingTags (DemoPlatform [] []) (emptyWorld [] [])) = Ok []
  /\ fst (@recommendTurn (DemoPlatform [] []) [] [] [] (emptyWorld [] [])) = Ok ([], [])
  /\ effects (snd (@recommendGames (DemoPlatform [] []) 6 (emptyWorld [] [])))
     = [TagQuery [] MAX_FETCHED_GAMES]
  /\ fst (@recommendGames (DemoPlatform [] []) 6 (emptyWorld [] [])) = Ok (Some []).
Proof. repeat split; reflexivity. Qed.

(** C5. For a converter that keeps the id, a run of [recommendGames] that
    returns (it settles: see C4) returns at most [MAX_GAMES] = 10 entries,
    none with the id of a record that LibraryStore held at the start of the
    call, and no two with the same id. *)
Theorem C5_recommendGames_capped_novel_distinct
    {PF : Platform} (fuel : nat) (w : World) :
  (forall g, GameInfoExtended.id (GIE_convert g) = GameInfo.id g) ->
  let run := recommendGames (5 + fuel) w in
  (exists e, fst run = Throw e)
  \/ (exists l, fst run = Ok (Some l)
        /\ length l <= 10
        /\ (forall x, In x l ->
              ~ In (GameInfoExtended.id x) (map GameInfoExtended.id (GameDB w)))
        /\ NoDup (map GameInfoExtended.id l)).
Proof.
  intros Hid run.
  destruct (recommendGames_run fuel w) as (tags & m & _ & _ & _ & _ & _ & H).
  destruct H as [H | [v (Hv & Hlen & Hnew & Hnd)]]; [left; exact H | right].
  exists (map GIE_convert v). split; [exact Hv |]. repeat split.
  - rewrite length_map. exact Hlen.
  - intros x Hx. apply in_map_iff in Hx. destruct Hx as [g [<- Hg]].
    rewrite Hid. apply Hnew, Hg.
  - rewrite map_map. rewrite (map_ext _ GameInfo.id) by apply Hid. exact Hnd.
Qed.

(** C5 on the demonstration platform: the catalogue offers the ids 1, 7, 2
    and 1 again, 7 is installed, and the ids 1 and 2 are returned. *)
Lemma C5_witness :
  (forall g, GameInfoExtended.id (demoGame g) = GameInfo.id g)
  /\ map GameInfoExtended.id
         (match fst (@recommendGames (DemoPlatform [] demoShelf) 5 shelfWorld) with
          | Ok (Some l) => l
          | _ => []
          end) = [1; 2]%Z
  /\ ((exists e, fst (@recommendGames (DemoPlatform [] demoShelf) 5 shelfWorld) = Throw e)
      \/ (exists l, fst (@recommendGames (DemoPlatform [] demoShelf) 5 shelfWorld)
                    = Ok (Some l)
            /\ length l <= 10
            /\ (forall x, In x l ->
                  ~ In (GameInfoExtended.id x) (map GameInfoExtended.id (GameDB shelfWorld)))
            /\ NoDup (map GameInfoExtended.id l))).
Proof.
  split; [reflexivity |]. split; [reflexivity |].
  exact (@C5_recommendGames_capped_novel_distinct (DemoPlatform [] demoShelf) 0 shelfWorld
           (fun g => eq_refl)).
Defined.

(** ** Adding a game by URL *)

(** The misspelt property is [undefined] on every array, and [undefined]
    is not [0]. *)
Lemma lenght_is_not_zero (A : Type) (entry : list A) :
  strictNotEqual (arrayProperty entry "lenght") (JsNumber 0) = true.
Proof. reflexivity. Qed.

Section AddRemote.
Context {SB : StringBuiltins} {PF : Platform}.

Lemma duplicateToasts_silent (names : list jsstr) : silent (duplicateToasts names).
Proof.
  unfold silent, duplicateToasts.
  destruct (length names <=? MAX_NUMBER_OF_PRESENT_GAMES_FOR_MESSAGES)%nat; [| reflexivity].
  induction names as [|x names IH]; [reflexivity | exact IH].
Qed.

Lemma selectGameDirectories_run (multipleSelection : bool) (filePaths : list jsstr)
    (w : World) :
  exists gameFolderPaths added,
    selectGameDirectories multipleSelection filePaths w
    = (Ok gameFolderPaths, addEffects added w)
    /\ silent added.
Proof.
  unfold selectGameDirectories. destruct (length filePaths =? 0)%nat.
  - exists [], [Toast "warning" "MR no directory selected" NoArg].
    split; reflexivity.
  - unfold bind. rewrite getUnlisted_run. cbv zeta.
    set (kept := filter _ filePaths). set (ts := duplicateToasts _).
    exists kept, ts. split; [| apply duplicateToasts_silent].
    destruct kept; reflexivity.
Qed.

Lemma silent_app (es1 es2 : list Effect) : silent es1 -> silent es2 -> silent (es1 ++ es2).
Proof.
  unfold silent. intros H1 H2. rewrite forallb_app, H1, H2. reflexivity.
Qed.

(** The run of [onAddRemoteGame]: the databases are as before, and no
    effect of the insertion branch is recorded. *)
Lemma onAddRemoteGame_run (filePaths : list jsstr) (urlInput : option jsstr) (w : World) :
  exists added c,
    snd (onAddRemoteGame filePaths urlInput w)
    = {| GameDB := GameDB w; ThreadDB := ThreadDB w; F95 := c;
         effects := effects w ++ added |}
    /\ silent added.
Proof.
  unfold onAddRemoteGame. unfold bind at 1.
  destruct (selectGameDirectories_run false filePaths w) as (gfp & added & E & Hs).
  rewrite E. clear E.
  assert (Stop : exists added0 c,
             snd (ret tt (addEffects added w))
             = {| GameDB := GameDB w; ThreadDB := ThreadDB w; F95 := c;
                  effects := effects w ++ added0 |} /\ silent added0).
  { exists added, (F95 w). split; [reflexivity | assumption]. }
  destruct gfp as [|gamePath gfp]; [exact Stop |].
  destruct urlInput as [url |]; [| exact Stop].
  destruct (streq url []); [exact Stop |]. clear Stop.
  unfold bind at 1, sendToastToUser at 1, emit at 1. cbn [addEffects GameDB ThreadDB F95 effects].
  unfold bind at 1, getGameDataFromURL. cbn [GameDB ThreadDB F95 effects].
  destruct (F95_getGameDataFromURL url (F95 w)) as [[info | e] c].
  - unfold bind at 1, GameDB_search. cbn [GameDB ThreadDB F95 effects].
    rewrite lenght_is_not_zero. unfold sendToastToUser, emit.
    cbn [snd GameDB ThreadDB F95 effects].
    rewrite <- !app_assoc. do 2 eexists. split; [reflexivity |].
    apply silent_app; [assumption | reflexivity].
  - cbn [snd]. rewrite <- !app_assoc. do 2 eexists. split; [reflexivity |].
    apply silent_app; [assumption | reflexivity].
Qed.

(** When the flow reaches the duplicate check, it ends with the warning
    for a game that is already listed, whatever the search returned. *)
Lemma onAddRemoteGame_already_listed (filePaths : list jsstr) (url : jsstr) (w w1 : World)
    (gamePath : jsstr) (others : list jsstr) (info : GameInfo.t) (c : CatalogState) :
  selectGameDirectories false filePaths w = (Ok (gamePath :: others), w1) ->
  url <> [] ->
  F95_getGameDataFromURL url (F95 w1) = (Ok info, c) ->
  onAddRemoteGame filePaths (Some url) w
  = (Ok tt,
     {| GameDB := GameDB w1; ThreadDB := ThreadDB w1; F95 := c;
        effects := effects w1
                   ++ [Toast "info" "MR adding game from url" NoArg;
                       UrlLookup url;
                       Toast "warning" "MR game already listed"
                             (GameName (GameInfo.name info))] |}).
Proof.
  intros Hsel Hurl Hf. unfold onAddRemoteGame. unfold bind at 1. rewrite Hsel.
  apply streq_false in Hurl. rewrite Hurl.
  unfold bind at 1, sendToastToUser at 1, emit at 1.
  unfold bind at 1, getGameDataFromURL. cbn [GameDB ThreadDB F95 effects].
  rewrite Hf. unfold bind at 1, GameDB_search. cbn [GameDB ThreadDB F95 effects].
  rewrite lenght_is_not_zero. unfold sendToastToUser, emit.
  cbn [GameDB ThreadDB F95 effects]. rewrite <- !app_assoc. reflexivity.
Qed.

End AddRemote.

(** C10. In [onAddRemoteGame] the duplicate check reads the property
    [lenght] of the search result, which is [undefined] for every array, so
    the check holds for every state of LibraryStore and every answer of the
    catalogue; the flow leaves through the branch for a game that is already
    listed, or earlier, and never reaches the insertion: LibraryStore (and
    ThreadStore) are as before, and neither the toast of a successful
    addition nor the reload of the paginator is among the effects. *)
Theorem C10_onAddRemoteGame_never_inserts
    {SB : StringBuiltins} {PF : Platform}
    (filePaths : list jsstr) (urlInput : option jsstr) (w : World) :
  let after := snd (onAddRemoteGame filePaths urlInput w) in
  (forall entry : list GameInfoExtended.t,
      strictNotEqual (arrayProperty entry "lenght") (JsNumber 0) = true)
  /\ GameDB after = GameDB w
  /\ ThreadDB after = ThreadDB w
  /\ exists added,
       effects after = effects w ++ added
       /\ ~ In PaginatorReload added
       /\ forall type arg, ~ In (Toast type "MR game successfully added" arg) added.
Proof.
  intros after. split; [intros entry; apply lenght_is_not_zero |].
  destruct (onAddRemoteGame_run filePaths urlInput w) as (added & c & E & Hs).
  unfold after. rewrite E. cbn [GameDB ThreadDB effects].
  split; [reflexivity |]. split; [reflexivity |].
  exists added. split; [reflexivity |].
  unfold silent in Hs. rewrite forallb_forall in Hs.
  split.
  - intros H. apply Hs in H. discriminate.
  - intros type arg H. apply Hs in H. discriminate.
Qed.

(** ** More on name normalisation *)

Lemma replaceTags_from_skip (s : jsstr) (n : nat) :
  replaceTags_from n s = replaceTags_from 0 (skipn n s).
Proof.
  revert n. induction s as [|c s IH]; intros [|n]; try reflexivity.
  simpl skipn. rewrite <- IH. reflexivity.
Qed.

Lemma replaceTags_from_In (s : jsstr) (n : nat) (c : codeunit) :
  In c (replaceTags_from n s) -> In c s.
Proof.
  revert n. induction s as [|x s IH]; intros n; simpl; [tauto |].
  destruct n as [|n]; [| intros H; right; exact (IH _ H)].
  destruct (x =? 91)%N.
  - destruct (tagEnd s) as [k|].
    + intros H; right; exact (IH _ H).
    + simpl. intros [H | H]; [left; assumption | right; exact (IH _ H)].
  - simpl. intros [H | H]; [left; assumption | right; exact (IH _ H)].
Qed.

Lemma tagEnd_bounds (s : jsstr) (n : nat) : tagEnd s = Some n -> 1 <= n <= length s.
Proof.
  revert n. induction s as [|c s IH]; intros n; simpl; [discriminate |].
  destruct (c =? 93)%N; [intros E; inversion E; lia |].
  destruct (isLineTerminator c); [discriminate |].
  destruct (tagEnd s) as [k|]; simpl; [| discriminate].
  intros E; inversion E. specialize (IH k eq_refl). lia.
Qed.

(** A scan that finds no closing bracket finds none after the groups are
    removed. *)
Lemma tagEnd_replaceTags (s : jsstr) : tagEnd s = None -> tagEnd (replaceTags s) = None.
Proof.
  unfold replaceTags. induction s as [|c s IH]; simpl; [reflexivity |].
  destruct (c =? 93)%N eqn:E93; [discriminate |].
  destruct (isLineTerminator c) eqn:ELT.
  - intros _. destruct (c =? 91)%N eqn:E91.
    + apply N.eqb_eq in E91. subst. discriminate.
    + simpl. rewrite E93, ELT. reflexivity.
  - destruct (tagEnd s) as [k|] eqn:Es; simpl; [discriminate |]. intros _.
    destruct (c =? 91)%N; simpl; rewrite E93, ELT, IH; reflexivity.
Qed.

Lemma replaceTags_noTag_bounded (n : nat) (s : jsstr) :
  length s <= n -> noTag (replaceTags s).
Proof.
  unfold replaceTags. revert s. induction n as [|n IH]; intros [|c s] Hn;
    simpl in Hn; try exact I; [lia |].
  simpl. destruct (c =? 91)%N eqn:E91.
  - destruct (tagEnd s) as [k|] eqn:Es.
    + rewrite replaceTags_from_skip. apply IH.
      apply tagEnd_bounds in Es. rewrite length_skipn. lia.
    + simpl. split; [intros _; apply tagEnd_replaceTags, Es | apply IH; lia].
  - simpl. split; [| apply IH; lia].
    intros ->. discriminate.
Qed.

Lemma replaceTags_noTag (s : jsstr) : noTag (replaceTags s).
Proof. apply replaceTags_noTag_bounded with (n := length s). lia. Qed.

Lemma noTag_fixed (t : jsstr) : noTag t -> replaceTags t = t.
Proof.
  unfold replaceTags. induction t as [|c t IH]; simpl; [reflexivity |].
  intros [Hc Ht]. destruct (c =? 91)%N eqn:E91.
  - apply N.eqb_eq in E91. rewrite (Hc E91), IH by assumption. reflexivity.
  - rewrite IH by assumption. reflexivity.
Qed.

(** X2. The removal of bracketed groups is complete: its result holds no
    group that the pattern matches, so a second removal changes nothing,
    and it only ever deletes units. *)
Theorem replaceTags_leaves_no_group (s : jsstr) :
  replaceTags (replaceTags s) = replaceTags s
  /\ noTag (replaceTags s)
  /\ (forall c, In c (replaceTags s) -> In c s)
  /\ length (replaceTags s) <= length s.
Proof.
  split; [apply noTag_fixed, replaceTags_noTag |].
  split; [apply replaceTags_noTag |].
  split; [intros c; apply replaceTags_from_In |].
  unfold replaceTags. generalize 0. induction s as [|c s IH]; intros n; simpl; [lia |].
  destruct n as [|n]; [| specialize (IH n); lia].
  destruct (c =? 91)%N; [destruct (tagEnd s) as [k|] |]; simpl;
    try (specialize (IH 0); lia). specialize (IH k); lia.
Qed.

(** [noTag] survives what [cleanGameName] does after the removal. *)
Lemma tagEnd_prefix (u q : jsstr) : tagEnd (u ++ q) = None -> tagEnd u = None.
Proof.
  induction u as [|c u IH]; simpl; [reflexivity |].
  destruct (c =? 93)%N; [discriminate |].
  destruct (isLineTerminator c); [reflexivity |].
  destruct (tagEnd (u ++ q)) as [k|]; simpl; [discriminate |].
  intros _. rewrite IH; reflexivity.
Qed.

Lemma noTag_prefix (p q : jsstr) : noTag (p ++ q) -> noTag p.
Proof.
  induction p as [|c p IH]; simpl; [trivial |].
  intros [Hc Hp]. split; [| apply IH, Hp].
  intros E. eapply tagEnd_prefix, Hc, E.
Qed.

Lemma noTag_suffix (p q : jsstr) : noTag (p ++ q) -> noTag q.
Proof. induction p as [|c p IH]; simpl; [trivial | intros [_ H]; apply IH, H]. Qed.

Lemma trimStart_suffix (s : jsstr) : exists p, s = p ++ trimStart s.
Proof.
  induction s as [|c s [p IH]]; simpl; [exists []; reflexivity |].
  destruct (isWhiteSpace c).
  - exists (c :: p). simpl. f_equal. exact IH.
  - exists []. reflexivity.
Qed.

Lemma trimEnd_prefix (s : jsstr) : exists q, s = trimEnd s ++ q.
Proof.
  unfold trimEnd. destruct (trimStart_suffix (rev s)) as [p E].
  exists (rev p). rewrite <- rev_app_distr, <- E, rev_involutive. reflexivity.
Qed.

Lemma noTag_trim (t : jsstr) : noTag t -> noTag (trim t).
Proof.
  intros H. unfold trim.
  destruct (trimStart_suffix t) as [p Ep]. rewrite Ep in H. apply noTag_suffix in H.
  destruct (trimEnd_prefix (trimStart t)) as [q Eq]. rewrite Eq in H.
  apply noTag_prefix in H. exact H.
Qed.

Lemma tagEnd_filter (f : codeunit -> bool) (u : jsstr) :
  (forall c, isLineTerminator c = true -> f c = true) ->
  tagEnd u = None -> tagEnd (filter f u) = None.
Proof.
  intros Hf. induction u as [|c u IH]; simpl; [reflexivity |].
  destruct (c =? 93)%N eqn:E93; [discriminate |].
  destruct (isLineTerminator c) eqn:ELT.
  - intros _. rewrite (Hf c ELT). simpl. rewrite E93, ELT. reflexivity.
  - destruct (tagEnd u) as [k|]; simpl; [discriminate |]. intros _.
    destruct (f c); simpl; [rewrite E93, ELT |]; rewrite IH; reflexivity.
Qed.

Lemma noTag_filter (f : codeunit -> bool) (t : jsstr) :
  (forall c, isLineTerminator c = true -> f c = true) ->
  noTag t -> noTag (filter f t).
Proof.
  intros Hf. induction t as [|c t IH]; simpl; [trivial |].
  intros [Hc Ht]. destruct (f c); simpl; [| apply IH, Ht].
  split; [| apply IH, Ht]. intros E. apply tagEnd_filter; auto.
Qed.

Lemma lineTerminator_unreserved (c : codeunit) :
  isLineTerminator c = true -> negb (isReserved c) = true.
Proof.
  unfold isLineTerminator.
  destruct (N.eq_dec c 10) as [-> | H10]; [reflexivity |].
  destruct (N.eq_dec c 13) as [-> | H13]; [reflexivity |].
  destruct (N.eq_dec c 8232) as [-> | H1]; [reflexivity |].
  destruct (N.eq_dec c 8233) as [-> | H2]; [reflexivity |].
  intros H. exfalso. revert H.
  destruct c as [|p]; [discriminate |].
  repeat (destruct p as [p|p|]; try discriminate; try congruence).
Qed.

Section CleanName.
Context {SB : StringBuiltins}.

Lemma cleanGameName_noTag (name : jsstr) : noTag (cleanGameName name).
Proof.
  unfold cleanGameName, stripReserved.
  apply noTag_trim, noTag_filter, replaceTags_noTag.
  apply lineTerminator_unreserved.
Qed.

Lemma cleanGameName_units (name : jsstr) (c : codeunit) :
  In c (cleanGameName name) ->
  In c (removeSpecials name (Some cleanGameName_allowed)).
Proof.
  unfold cleanGameName, stripReserved. intros H.
  apply trim_In, filter_In in H. destruct H as [H _].
  exact (replaceTags_from_In _ _ _ H).
Qed.

End CleanName.

(** X1. Whatever the case conversions do, a cleaned name holds none of the
    reserved characters, does not begin or end with a blank, and holds no
    bracketed group that the tag pattern matches. It may be empty. *)
Theorem cleanGameName_is_clean {SB : StringBuiltins} (name : jsstr) :
  forallb (fun c => negb (isReserved c)) (cleanGameName name) = true
  /\ trim (cleanGameName name) = cleanGameName name
  /\ replaceTags (cleanGameName name) = cleanGameName name
  /\ stripReserved (cleanGameName name) = cleanGameName name
  /\ @cleanGameName BasicLatin (lit " [MOD] [v.1.0] ") = [].
Proof.
  split.
  - apply forallb_forall. intros c Hc. apply negb_true_iff.
    unfold cleanGameName, stripReserved in Hc.
    apply trim_In, filter_In in Hc. apply negb_true_iff, Hc.
  - split; [unfold cleanGameName; apply trim_idempotent |].
    split; [apply noTag_fixed, cleanGameName_noTag |].
    split; [| reflexivity].
    unfold stripReserved at 1.
    assert (H : forall c, In c (cleanGameName name) -> negb (isReserved c) = true).
    { intros c Hc. unfold cleanGameName, stripReserved in Hc.
      apply trim_In, filter_In in Hc. apply Hc. }
    induction (cleanGameName name) as [|c l IH]; simpl; [reflexivity |].
    rewrite (H c (or_introl eq_refl)). f_equal. apply IH.
    intros x Hx. apply H. right; assumption.
Qed.

Lemma BasicLatin_unitwise (t : jsstr) :
  forallb (fun c => (c <? 128)%N) t = true ->
  @toLowerCase BasicLatin t = map asciiLower t
  /\ @toUpperCase BasicLatin t = map asciiUpper t.
Proof.
  simpl. induction t as [|c t IH]; simpl; [split; reflexivity |].
  intros H. apply andb_true_iff in H. destruct H as [Hc Ht].
  destruct (IH Ht) as [El Eu]. rewrite El, Eu. apply N.ltb_lt in Hc.
  unfold lowerUnit, upperUnit, asciiLower, asciiUpper.
  destruct ((65 <=? c) && (c <=? 90))%N, ((97 <=? c) && (c <=? 122))%N;
    destruct (N.eqb_spec c 304); destruct (N.eqb_spec c 223); try lia;
    split; reflexivity.
Qed.

Lemma BasicLatin_unitwise_within (name t : jsstr) :
  forallb (fun c => (c <? 128)%N) name = true ->
  (forall c, In c t -> In c name) ->
  @toLowerCase BasicLatin t = map asciiLower t
  /\ @toUpperCase BasicLatin t = map asciiUpper t.
Proof.
  intros Hn Ht. apply BasicLatin_unitwise. apply forallb_forall. intros c Hc.
  rewrite forallb_forall in Hn. apply Hn, Ht, Hc.
Qed.

Lemma filter_fixed (A : Type) (f : A -> bool) (l : list A) :
  (forall x, In x l -> f x = true) -> filter f l = l.
Proof.
  induction l as [|x l IH]; intros H; simpl; [reflexivity |].
  rewrite (H x (or_introl eq_refl)). f_equal. apply IH.
  intros y Hy. apply H. right; assumption.
Qed.

(** A trimmed string of units that [removeSpecials] keeps is left as it
    is. *)
Lemma removeSpecials_fixed {SB : StringBuiltins} (lc uc : codeunit -> codeunit)
    (allowed : list jsstr) (r : jsstr) :
  toLowerCase r = map lc r -> toUpperCase r = map uc r ->
  (forall c, In c r -> keptUnit lc uc allowed c = true) ->
  trim r = r ->
  removeSpecials r (Some allowed) = r.
Proof.
  intros Hl Hu Hk Ht.
  rewrite (removeSpecials_unitwise lc uc allowed r Hl Hu), filter_fixed by assumption.
  exact Ht.
Qed.

(** X4. On a string whose case conversions act code unit by code unit, and
    stay so on every string made of its units, [removeSpecials] is
    idempotent, with an allow list or without. *)
Theorem removeSpecials_idempotent_on_unitwise_strings
    {SB : StringBuiltins} (lc uc : codeunit -> codeunit)
    (str : jsstr) (allowedChars : option (list jsstr)) :
  (forall t, (forall c, In c t -> In c str) ->
             toLowerCase t = map lc t /\ toUpperCase t = map uc t) ->
  removeSpecials (removeSpecials str allowedChars) allowedChars
  = removeSpecials str allowedChars.
Proof.
  intros H. destruct allowedChars as [allowed |].
  - apply (removeSpecials_idempotent_unitwise lc uc str allowed H).
  - rewrite !removeSpecials_default.
    apply (removeSpecials_idempotent_unitwise lc uc str [] H).
Qed.

Lemma removeSpecials_idempotent_witness :
  @removeSpecials BasicLatin
    (@removeSpecials BasicLatin (lit " Some Game: 2 [v.1.0] ") None) None
  = @removeSpecials BasicLatin (lit " Some Game: 2 [v.1.0] ") None.
Proof.
  apply (@removeSpecials_idempotent_on_unitwise_strings BasicLatin asciiLower asciiUpper).
  intros t Ht. apply (BasicLatin_unitwise_within (lit " Some Game: 2 [v.1.0] ") t);
    [reflexivity | exact Ht].
Defined.

(** X3. On a name whose case conversions act code unit by code unit, and
    stay so on every string made of its units, [cleanGameName] is
    idempotent: a cleaned name is its own cleaned name. *)
Theorem cleanGameName_idempotent_on_unitwise_names
    {SB : StringBuiltins} (lc uc : codeunit -> codeunit) (name : jsstr) :
  (forall t, (forall c, In c t -> In c name) ->
             toLowerCase t = map lc t /\ toUpperCase t = map uc t) ->
  cleanGameName (cleanGameName name) = cleanGameName name.
Proof.
  intros H.
  assert (Hu : forall c, In c (cleanGameName name) ->
                 In c name /\ keptUnit lc uc cleanGameName_allowed c = true).
  { intros c Hc. apply cleanGameName_units in Hc.
    destruct (H name (fun c Hc => Hc)) as [Hl Hup].
    rewrite (removeSpecials_unitwise lc uc cleanGameName_allowed name Hl Hup) in Hc.
    apply trim_In, filter_In in Hc. exact Hc. }
  destruct (H (cleanGameName name) (fun c Hc => proj1 (Hu c Hc))) as [Hl Hup].
  unfold cleanGameName at 1.
  rewrite (@removeSpecials_fixed SB lc uc cleanGameName_allowed (cleanGameName name)
             Hl Hup (fun c Hc => proj2 (Hu c Hc)) (cleanGameName_trimmed name)).
  rewrite (@noTag_fixed (cleanGameName name) (cleanGameName_noTag name)).
  rewrite (@stripReserved_fixed (cleanGameName name) (@cleanGameName_unreserved SB name)).
  apply cleanGameName_trimmed.
Qed.

Lemma cleanGameName_idempotent_witness :
  @cleanGameName BasicLatin (@cleanGameName BasicLatin (lit "Some Game: 2 [MOD][v.1.0]"))
  = @cleanGameName BasicLatin (lit "Some Game: 2 [MOD][v.1.0]")
  /\ @cleanGameName BasicLatin (lit "Some Game: 2 [MOD][v.1.0]") = lit "Some Game 2".
Proof.
  split; [| reflexivity].
  apply (@cleanGameName_idempotent_on_unitwise_names BasicLatin asciiLower asciiUpper).
  intros t Ht. apply (BasicLatin_unitwise_within (lit "Some Game: 2 [MOD][v.1.0]") t);
    [reflexivity | exact Ht].
Defined.

(** ** [getGameVersionFromName] *)

Lemma indexFrom_unit_found (x : codeunit) (v post : jsstr) (pos : nat) :
  ~ In x v ->
  indexFrom [x] (v ++ x :: post) pos = Z.of_nat (pos + length v).
Proof.
  revert pos. induction v as [|y v IH]; intros pos Hv; simpl.
  - rewrite N.eqb_refl. simpl. f_equal. lia.
  - destruct (N.eqb_spec x y) as [-> | Hxy]; [exfalso; apply Hv; left; reflexivity |].
    simpl. rewrite IH by (intros H; apply Hv; right; exact H). f_equal. lia.
Qed.

(** The units before the place [s.indexOf(x, ...)] reports are not [x]. *)
Lemma indexFrom_unit_scan (x : codeunit) (s : jsstr) (pos : nat) :
  indexFrom [x] s pos = (-1)%Z
  \/ exists j, indexFrom [x] s pos = Z.of_nat (pos + j) /\ ~ In x (firstn j s).
Proof.
  revert pos. induction s as [|y s IH]; intros pos; simpl; [left; reflexivity |].
  destruct (N.eqb_spec x y) as [-> | Hxy]; simpl.
  - right. exists 0. split; [f_equal; lia | simpl; tauto].
  - destruct (IH (S pos)) as [E | [j [E Hj]]]; [left; exact E | right].
    exists (S j). split; [rewrite E; f_equal; lia |].
    simpl. intros [H | H]; [congruence | exact (Hj H)].
Qed.

Lemma firstn_In (A : Type) (n : nat) (l : list A) (x : A) : In x (firstn n l) -> In x l.
Proof.
  revert l. induction n as [|n IH]; intros [|y l]; simpl; try tauto.
  intros [H | H]; [left; exact H | right; exact (IH _ H)].
Qed.

Lemma firstn_firstn_In (A : Type) (n j : nat) (l : list A) (x : A) :
  n <= j -> In x (firstn n l) -> In x (firstn j l).
Proof.
  revert j l. induction n as [|n IH]; intros j l Hn; simpl; [tauto |].
  destruct l as [|y l]; simpl; [destruct j; simpl; tauto |].
  destruct j as [|j]; [lia |]. simpl.
  intros [H | H]; [left; exact H | right; apply (IH j l); [lia | exact H]].
Qed.

(** X6. An extracted version never holds a closing bracket: it is the text
    up to the first one after the prefix, or empty when there is none (or
    when the prefix lies past the end of the name), or the word Unknown. *)
Theorem getGameVersionFromName_has_no_closing_bracket
    {SB : StringBuiltins} (name : jsstr) :
  existsb (fun c => (c =? 93)%N) (getGameVersionFromName name) = false.
Proof.
  unfold getGameVersionFromName.
  destruct (strIncludes (toUpperCase name) PREFIX_VERSION) eqn:Hinc; [| reflexivity].
  unfold strIncludes in Hinc. apply Z.leb_le in Hinc.
  set (start := (indexOf (toUpperCase name) PREFIX_VERSION 0
                 + Z.of_nat (length PREFIX_VERSION))%Z).
  assert (Hstart : (0 <= start)%Z) by (unfold start; lia).
  apply not_true_iff_false. intros Hex. apply existsb_exists in Hex.
  destruct Hex as [c [Hc Ec]]. apply N.eqb_eq in Ec. subst c.
  unfold substr, indexOf in Hc.
  destruct (Z.ltb_spec start 0) as [Hneg | _]; [lia |].
  set (size := Z.of_nat (length name)) in *.
  replace (Z.min (Z.max start 0) size) with (Z.min start size) in Hc by lia.
  set (k := Z.to_nat (Z.min start size)) in *.
  destruct (indexFrom_unit_scan 93%N (skipn k name) k) as [E | [j [E Hj]]].
  - assert (E' : indexFrom (lit "]") (skipn k name) k = (-1)%Z) by exact E.
    rewrite E' in Hc.
    replace (Z.to_nat (Z.min (Z.max (-1 - start) 0) (size - Z.min start size))) with 0
      in Hc by lia.
    exact Hc.
  - assert (E' : indexFrom (lit "]") (skipn k name) k = Z.of_nat (k + j)) by exact E.
    rewrite E' in Hc.
    apply Hj. eapply firstn_firstn_In; [| exact Hc]. unfold k. lia.
Qed.

(** X5. Reading back an embedded version tag: when the name is [pre], a
    three-unit prefix, the version [v] without a closing bracket, a closing
    bracket and anything after, and the first "[V." of the upper-cased name
    stands where the prefix does, the version extracted is [v], in its
    original case. *)
Theorem getGameVersionFromName_reads_back
    {SB : StringBuiltins} (pre tag v post : jsstr) :
  length tag = 3 ->
  ~ In 93%N v ->
  indexOf (toUpperCase (pre ++ tag ++ v ++ 93%N :: post)) PREFIX_VERSION 0
  = Z.of_nat (length pre) ->
  getGameVersionFromName (pre ++ tag ++ v ++ 93%N :: post) = v.
Proof.
  intros Htag Hv Hidx. unfold getGameVersionFromName, strIncludes.
  rewrite Hidx. destruct (Z.leb_spec 0 (Z.of_nat (length pre))) as [_ | H]; [| lia].
  set (name := pre ++ tag ++ v ++ 93%N :: post).
  assert (Hlen : length name = length pre + 3 + length v + S (length post)).
  { unfold name. rewrite !length_app. simpl. lia. }
  assert (Hskip : skipn (length pre + 3) name = v ++ 93%N :: post).
  { unfold name. rewrite app_assoc, skipn_app.
    rewrite skipn_all2 by (rewrite length_app; lia).
    rewrite length_app, Htag. replace (length pre + 3 - (length pre + 3)) with 0 by lia.
    reflexivity. }
  change (Z.of_nat (length PREFIX_VERSION)) with 3%Z.
  unfold indexOf, substr.
  destruct (Z.ltb_spec (Z.of_nat (length pre) + 3) 0) as [H | _]; [lia |].
  replace (Z.to_nat (Z.min (Z.max (Z.of_nat (length pre) + 3) 0) (Z.of_nat (length name))))
    with (length pre + 3) by lia.
  replace (Z.to_nat (Z.min (Z.of_nat (length pre) + 3) (Z.of_nat (length name))))
    with (length pre + 3) by lia.
  rewrite Hskip.
  assert (E : indexFrom (lit "]") (v ++ 93%N :: post) (length pre + 3)
              = Z.of_nat (length pre + 3 + length v))
    by (apply (indexFrom_unit_found 93%N v post (length pre + 3) Hv)).
  rewrite E.
  replace (Z.to_nat _) with (length v) by lia.
  rewrite firstn_app, firstn_all, Nat.sub_diag. simpl. apply app_nil_r.
Qed.

Lemma getGameVersionFromName_witness :
  @getGameVersionFromName BasicLatin (lit "MyGame " ++ lit "[v." ++ lit "1.2b" ++ 93%N :: lit " (win)")
  = lit "1.2b".
Proof.
  apply (@getGameVersionFromName_reads_back BasicLatin (lit "MyGame ") (lit "[v.")
           (lit "1.2b") (lit " (win)")).
  - reflexivity.
  - intros H. vm_compute in H. intuition discriminate.
  - reflexivity.
Defined.

(** ** More on [mostFrequent] *)

Lemma distinct_NoDup (items : list jsstr) : NoDup (distinct items).
Proof.
  induction items as [|e items IH] using rev_ind; [constructor |].
  rewrite distinct_snoc. destruct (includes (distinct items) e) eqn:E; [exact IH |].
  apply NoDup_snoc; [exact IH |]. rewrite <- includes_In. congruence.
Qed.

Lemma filter_split_Permutation (A : Type) (f : A -> bool) (l : list A) :
  Permutation (filter f l ++ filter (fun x => negb (f x)) l) l.
Proof.
  induction l as [|x l IH]; simpl; [constructor |].
  destruct (f x); simpl.
  - constructor. exact IH.
  - apply Permutation_sym. eapply perm_trans; [| apply Permutation_middle].
    constructor. apply Permutation_sym, IH.
Qed.

Lemma keyOrder_Permutation (keys : list jsstr) : Permutation (keyOrder keys) keys.
Proof.
  unfold keyOrder. eapply perm_trans; [| apply filter_split_Permutation].
  apply Permutation_app_tail, Permutation_sym, stableSort_Permutation.
Qed.

Lemma StronglySorted_across (A : Type) (R : A -> A -> Prop) (l1 l2 : list A) :
  StronglySorted R (l1 ++ l2) -> forall a b, In a l1 -> In b l2 -> R a b.
Proof.
  induction l1 as [|x l1 IH]; simpl; [tauto |].
  intros H a b [<- | Ha] Hb.
  - apply StronglySorted_inv in H. destruct H as [_ H].
    rewrite Forall_forall in H. apply H, in_or_app. right; exact Hb.
  - apply StronglySorted_inv in H. apply (IH (proj1 H) a b Ha Hb).
Qed.

Lemma skipn_In (A : Type) (n : nat) (l : list A) (x : A) : In x (skipn n l) -> In x l.
Proof.
  intros H. rewrite <- (firstn_skipn n l). apply in_or_app. right; exact H.
Qed.

Lemma counted_fst (items keys : list jsstr) : map fst (counted items keys) = keys.
Proof. unfold counted. rewrite map_map. simpl. apply map_id. Qed.

Lemma ranked_names_Permutation (items : list jsstr) :
  Permutation (map fst (rankDescending (counted items (keyOrder (distinct items)))))
              (distinct items).
Proof.
  eapply perm_trans.
  - apply Permutation_map, Permutation_sym, rankDescending_Permutation.
  - rewrite counted_fst. apply keyOrder_Permutation.
Qed.

Lemma ranked_counts (items keys : list jsstr) (p : jsstr * nat) :
  In p (rankDescending (counted items keys)) -> snd p = occurrences (fst p) items.
Proof.
  intros H. apply (Permutation_in _ (Permutation_sym (rankDescending_Permutation _))) in H.
  unfold counted in H. apply in_map_iff in H. destruct H as [x [<- _]]. reflexivity.
Qed.

(** X7. For tags that are no property names of [Object.prototype],
    [mostFrequent] returns values of its input, each once, as many as [n]
    or as there are distinct values, and no value it leaves out occurs more
    often than a value it returns. *)
Theorem mostFrequent_returns_the_most_frequent (items : list jsstr) (n : nat) :
  forallb ordinaryName items = true ->
  let out := mostFrequent items (Z.of_nat n) in
  (forall x, In x out -> In x items)
  /\ NoDup out
  /\ length out = Nat.min n (length (distinct items))
  /\ (forall x y, In x out -> In y items -> ~ In y out ->
        occurrences y items <= occurrences x items).
Proof.
  intros H out. unfold out. rewrite (mostFrequent_ordinary items n H).
  set (ranked := rankDescending (counted items (keyOrder (distinct items)))).
  set (k := Nat.min n (length (distinct items))).
  pose proof (ranked_names_Permutation items) as Hperm. fold ranked in Hperm.
  split; [| split; [| split]].
  - intros x Hx. apply firstn_In in Hx.
    apply distinct_In. exact (Permutation_in _ Hperm Hx).
  - apply (NoDup_app_remove_r _ (skipn k (map fst ranked))).
    rewrite firstn_skipn.
    apply (Permutation_NoDup (Permutation_sym Hperm)), distinct_NoDup.
  - rewrite length_firstn, (Permutation_length Hperm). unfold k. lia.
  - intros x y Hx Hy Hny.
    rewrite firstn_map in Hx. apply in_map_iff in Hx. destruct Hx as [p [<- Hp]].
    assert (Hyr : In y (map fst ranked)).
    { apply (Permutation_in _ (Permutation_sym Hperm)), distinct_In, Hy. }
    rewrite <- (firstn_skipn k ranked), map_app in Hyr. apply in_app_iff in Hyr.
    destruct Hyr as [Hyr | Hyr]; [rewrite <- firstn_map in Hyr; contradiction |].
    apply in_map_iff in Hyr. destruct Hyr as [q [<- Hq]].
    rewrite <- (ranked_counts items (keyOrder (distinct items)) q)
      by (apply (skipn_In k), Hq).
    rewrite <- (ranked_counts items (keyOrder (distinct items)) p)
      by (apply (firstn_In k), Hp).
    apply (StronglySorted_across (R := fun a b : jsstr * nat => snd b <= snd a)
             (firstn k ranked) (skipn k ranked)); [| exact Hp | exact Hq].
    rewrite firstn_skipn. apply rankDescending_sorted.
Qed.

Lemma mostFrequent_most_frequent_witness :
  forallb ordinaryName (map lit ["rpg"; "3dcg"; "rpg"; "2"; "3dcg"; "rpg"]%string) = true
  /\ mostFrequent (map lit ["rpg"; "3dcg"; "rpg"; "2"; "3dcg"; "rpg"]%string) (Z.of_nat 2)
     = map lit ["rpg"; "3dcg"]%string
  /\ length (mostFrequent (map lit ["rpg"; "3dcg"; "rpg"; "2"; "3dcg"; "rpg"]%string)
                          (Z.of_nat 2)) = 2.
Proof.
  split; [reflexivity |]. split; [reflexivity |].
  destruct (mostFrequent_returns_the_most_frequent
              (map lit ["rpg"; "3dcg"; "rpg"; "2"; "3dcg"; "rpg"]%string) 2 eq_refl)
    as (_ & _ & H & _).
  exact H.
Defined.

(** X8. For such tags and any [n], negative ones included, the number of
    values returned is [min n d] when [n] is not negative and [max (d + n)
    0] when it is, [d] being the number of distinct values: a negative [n]
    cuts values off the end of the ranking, it does not give an empty
    result. *)
Theorem mostFrequent_size (items : list jsstr) (n : Z) :
  forallb ordinaryName items = true ->
  let d := Z.of_nat (length (distinct items)) in
  Z.of_nat (length (mostFrequent items n))
  = (if n <? 0 then Z.max (d + n) 0 else Z.min n d)%Z.
Proof.
  intros H d. unfold mostFrequent. rewrite (countLoop_tally items H).
  rewrite length_map. unfold slice0, sortItems.
  rewrite !stableSort_length, !length_map. unfold objectKeys.
  rewrite keyOrder_length, length_map. unfold tally. rewrite length_map.
  fold d. rewrite length_firstn, stableSort_length, length_map, keyOrder_length.
  rewrite length_map, length_map. fold d.
  destruct (Z.ltb_spec n 0); destruct (Z.ltb_spec (Z.min n d) 0); lia.
Qed.

Lemma mostFrequent_size_witness :
  forallb ordinaryName (map lit ["a"; "b"; "a"; "c"]%string) = true
  /\ mostFrequent (map lit ["a"; "b"; "a"; "c"]%string) (-1) = map lit ["a"; "b"]%string
  /\ Z.of_nat (length (mostFrequent (map lit ["a"; "b"; "a"; "c"]%string) (-1))) = 2%Z.
Proof.
  split; [reflexivity |]. split; [reflexivity |].
  exact (mostFrequent_size (map lit ["a"; "b"; "a"; "c"]%string) (-1) eq_refl).
Defined.

(** ** More on the recommendations *)

Lemma existsb_Zeqb_In (x : Z) (l : list Z) : existsb (Z.eqb x) l = true <-> In x l.
Proof.
  rewrite existsb_exists. split.
  - intros [y [Hy E]]. apply Z.eqb_eq in E. subst. exact Hy.
  - intros H. exists x. split; [exact H | apply Z.eqb_refl].
Qed.

Lemma existsb_Zeqb_ext (x : Z) (l l' : list Z) :
  (forall z, In z l <-> In z l') -> existsb (Z.eqb x) l = existsb (Z.eqb x) l'.
Proof.
  intros H. destruct (existsb (Z.eqb x) l') eqn:E.
  - apply existsb_Zeqb_In. apply H. apply existsb_Zeqb_In, E.
  - apply not_true_iff_false. intros E'. apply existsb_Zeqb_In, H, existsb_Zeqb_In in E'.
    congruence.
Qed.

Lemma novelGames_ext (ids seen seen' : list Z) (games : list GameInfo.t) :
  (forall z, In z seen <-> In z seen') ->
  novelGames ids seen games = novelGames ids seen' games.
Proof.
  revert seen seen'. induction games as [|g games IH]; intros seen seen' H; simpl;
    [reflexivity |].
  rewrite (existsb_Zeqb_ext (GameInfo.id g) seen seen' H).
  destruct (existsb (Z.eqb (GameInfo.id g)) ids || existsb (Z.eqb (GameInfo.id g)) seen').
  - apply IH, H.
  - f_equal. apply IH. intros z. simpl. rewrite H. reflexivity.
Qed.

Lemma find_by_id (g : GameInfo.t) (v : list GameInfo.t) :
  match find (fun g0 => (GameInfo.id g0 =? GameInfo.id g)%Z) v with
  | Some _ => true
  | None => false
  end = existsb (Z.eqb (GameInfo.id g)) (map GameInfo.id v).
Proof.
  induction v as [|x v IH]; simpl; [reflexivity |].
  rewrite (Z.eqb_sym (GameInfo.id g) (GameInfo.id x)).
  destruct (GameInfo.id x =? GameInfo.id g)%Z; [reflexivity | exact IH].
Qed.

(** X9. The inner loop of [recommendGames] keeps, after the games it
    already holds and in the order of the catalogue's answer, the first
    games that are not installed and whose id it does not hold yet, until
    it holds [MAX_GAMES] games. *)
Theorem considerGame_keeps_the_first_novel_games
    (installedGameIDs : list Z) (games validGames : list GameInfo.t) :
  fold_left (considerGame installedGameIDs) games validGames
  = validGames
    ++ firstn (MAX_GAMES - length validGames)
              (novelGames installedGameIDs (map GameInfo.id validGames) games).
Proof.
  revert validGames. induction games as [|g games IH]; intros v.
  - cbn [fold_left novelGames]. rewrite firstn_nil, app_nil_r. reflexivity.
  - cbn [fold_left novelGames]. rewrite IH. unfold considerGame. rewrite find_by_id.
    destruct (existsb (Z.eqb (GameInfo.id g)) installedGameIDs) eqn:E1;
      cbn [negb andb orb]; [reflexivity |].
    destruct (existsb (Z.eqb (GameInfo.id g)) (map GameInfo.id v)) eqn:E2;
      cbn [negb andb orb]; [reflexivity |].
    destruct (Nat.ltb_spec (length v) MAX_GAMES) as [E3 | E3].
    + rewrite <- app_assoc, length_app. cbn [app length]. f_equal.
      replace (MAX_GAMES - length v) with (S (MAX_GAMES - (length v + 1))) by lia.
      rewrite firstn_cons. do 2 f_equal. apply novelGames_ext. intros z.
      rewrite map_app, in_app_iff. simpl. tauto.
    + replace (MAX_GAMES - length v) with 0 by lia. reflexivity.
Qed.

Section RecommendMore.
Context {PF : Platform}.

Lemma recommendGames_unfold (fuel : nat) (w : World) :
  exists tags,
    recommendGames fuel w
    = match recommendLoop fuel (map GameInfoExtended.id (GameDB w)) tags [] w with
      | (Ok a, w') => (Ok (option_map (map GIE_convert) a), w')
      | (Throw e, w') => (Throw e, w')
      end.
Proof.
  destruct (workingTags_run w) as (tags & Ht & _). exists tags.
  unfold recommendGames. unfold bind at 1. rewrite Ht.
  unfold bind at 1, GameDB_search. rewrite filter_all.
  unfold bind.
  destruct (recommendLoop fuel (map GameInfoExtended.id (GameDB w)) tags [] w)
    as [[a | e] w']; reflexivity.
Qed.

Lemma fold_considerGame_Forall (P : GameInfo.t -> Prop) (ids : list Z)
    (games v : list GameInfo.t) :
  Forall P games -> Forall P v -> Forall P (fold_left (considerGame ids) games v).
Proof.
  revert v. induction games as [|g games IH]; intros v Hg Hv; simpl; [exact Hv |].
  inversion Hg; subst. apply IH; [assumption |].
  unfold considerGame. destruct (_ && _); [| exact Hv].
  apply Forall_app. split; [exact Hv | constructor; [assumption | constructor]].
Qed.

Lemma recommendLoop_frame (fuel : nat) (ids : list Z) :
  forall (tags : list jsstr) (v : list GameInfo.t) (w : World),
    GameDB (snd (recommendLoop fuel ids tags v w)) = GameDB w
    /\ ThreadDB (snd (recommendLoop fuel ids tags v w)) = ThreadDB w.
Proof.
  induction fuel as [|fuel IH]; intros tags v w; [split; reflexivity |].
  rewrite recommendLoop_step.
  destruct (F95_getLatestUpdates tags "rating" MAX_FETCHED_GAMES (F95 w)) as [[games | e] c];
    [| split; reflexivity].
  cbv zeta. destruct (_ && _); [| split; reflexivity].
  destruct (IH (removelast tags) (fold_left (considerGame ids) games v)
               (afterQuery tags c w)) as [H1 H2].
  rewrite H1, H2. split; reflexivity.
Qed.

Lemma recommendLoop_provenance (P : GameInfo.t -> Prop) (fuel : nat) (ids : list Z) :
  (forall tags sorting limit c games c',
      F95_getLatestUpdates tags sorting limit c = (Ok games, c') -> Forall P games) ->
  forall (tags : list jsstr) (v : list GameInfo.t) (w : World) (v' : list GameInfo.t),
    Forall P v ->
    fst (recommendLoop fuel ids tags v w) = Ok (Some v') -> Forall P v'.
Proof.
  intros HP. induction fuel as [|fuel IH]; intros tags v w v' Hv; [discriminate |].
  rewrite recommendLoop_step.
  destruct (F95_getLatestUpdates tags "rating" MAX_FETCHED_GAMES (F95 w))
    as [[games | e] c] eqn:E; [| discriminate].
  cbv zeta.
  assert (Hf : Forall P (fold_left (considerGame ids) games v))
    by (apply fold_considerGame_Forall; [exact (HP _ _ _ _ _ _ E) | exact Hv]).
  destruct (_ && _).
  - apply IH. exact Hf.
  - simpl. intros H. inversion H; subst. exact Hf.
Qed.

End RecommendMore.

(** X10. [recommendGames] only reads: it leaves LibraryStore and
    ThreadStore as they are, also when the catalogue throws, and every
    entry it returns is the conversion of a title that an answer of the
    catalogue held: whatever holds of all titles the catalogue answers
    holds of the titles behind the result. *)
Theorem recommendGames_offers_only_catalogue_titles
    {PF : Platform} (P : GameInfo.t -> Prop) (fuel : nat) (w : World) :
  (forall tags sorting limit c games c',
      F95_getLatestUpdates tags sorting limit c = (Ok games, c') -> Forall P games) ->
  GameDB (snd (recommendGames fuel w)) = GameDB w
  /\ ThreadDB (snd (recommendGames fuel w)) = ThreadDB w
  /\ forall l, fst (recommendGames fuel w) = Ok (Some l) ->
       exists v, l = map GIE_convert v /\ Forall P v.
Proof.
  intros HP. destruct (recommendGames_unfold fuel w) as [tags E]. rewrite E.
  pose proof (recommendLoop_frame fuel (map GameInfoExtended.id (GameDB w)) tags [] w)
    as [F1 F2].
  pose proof (@recommendLoop_provenance PF P fuel (map GameInfoExtended.id (GameDB w)) HP
                tags [] w) as Hprov.
  destruct (recommendLoop fuel (map GameInfoExtended.id (GameDB w)) tags [] w)
    as [[a | e] w']; simpl in *.
  - split; [exact F1 | split; [exact F2 |]].
    intros l Hl. inversion Hl as [Ha]. destruct a as [v |]; [| discriminate].
    exists v. split; [simpl in Ha; congruence |].
    apply Hprov; [constructor | reflexivity].
  - split; [exact F1 | split; [exact F2 |]]. intros l Hl. discriminate.
Qed.

Lemma recommendGames_catalogue_witness :
  exists v, fst (@recommendGames (DemoPlatform [] demoShelf) 5 shelfWorld)
            = Ok (Some (map demoGame v))
            /\ Forall (fun g => In g demoShelf) v.
Proof.
  destruct (@recommendGames_offers_only_catalogue_titles (DemoPlatform [] demoShelf)
              (fun g => In g demoShelf) 5 shelfWorld) as (_ & _ & H).
  - intros tags sorting limit c games c' E. simpl in E. inversion E; subst.
    apply Forall_forall. intros g Hg. exact (firstn_In _ _ _ Hg).
  - destruct (H _ eq_refl) as [v [Ev Hv]]. exists v. split; [| exact Hv].
    simpl in Ev. rewrite <- Ev. reflexivity.
Defined.

(** ** More on the watched threads *)

Lemma matchDotDigits_after (pre : jsstr) (d : codeunit) (s : jsstr) :
  matchDotDigits (pre ++ [46%N]) = None ->
  isDigit d = true ->
  matchDotDigits (pre ++ 46%N :: d :: s) = Some (46%N :: takeDigits (d :: s)).
Proof.
  intros Hpre Hd. induction pre as [|c pre IH].
  - simpl. rewrite Hd. reflexivity.
  - simpl in Hpre |- *.
    assert (Hhead : match pre ++ 46%N :: d :: s with x :: _ => isDigit x | [] => false end
                    = match pre ++ [46%N] with x :: _ => isDigit x | [] => false end)
      by (destruct pre; reflexivity).
    rewrite Hhead.
    destruct ((c =? 46)%N && match pre ++ [46%N] with x :: _ => isDigit x | [] => false end);
      [discriminate | exact (IH Hpre)].
Qed.

Lemma takeDigits_run (digits rest : jsstr) :
  forallb isDigit digits = true ->
  match rest with x :: _ => isDigit x = false | [] => True end ->
  takeDigits (digits ++ rest) = digits.
Proof.
  intros Hd Hr. induction digits as [|c digits IH]; simpl in *.
  - destruct rest as [|x rest]; [reflexivity |]. simpl. rewrite Hr. reflexivity.
  - apply andb_true_iff in Hd. destruct Hd as [Hc Hd]. rewrite Hc, (IH Hd). reflexivity.
Qed.

Lemma takeDigits_all (digits : jsstr) :
  forallb isDigit digits = true -> takeDigits digits = digits.
Proof.
  intros Hd. rewrite <- (app_nil_r digits) at 1. apply takeDigits_run; [assumption | exact I].
Qed.

Lemma toNumber_exact (n : N) : (n < 2 ^ 53)%N -> toNumber n = n.
Proof.
  intros H. unfold toNumber. apply N.ltb_lt in H. rewrite H. reflexivity.
Qed.

(** What [parseInt] is handed is a run of digits that is not empty. *)
Lemma parseInt_argument (url m : jsstr) :
  matchDotDigits url = Some m ->
  removeFirstDot m <> [] /\ forallb isDigit (removeFirstDot m) = true.
Proof.
  induction url as [|c url IH]; simpl; [discriminate |].
  destruct ((c =? 46)%N && match url with x :: _ => isDigit x | [] => false end) eqn:E;
    [| exact IH].
  intros H. inversion H; subst m. clear H IH.
  apply andb_true_iff in E. destruct E as [Ec E]. simpl. rewrite Ec.
  destruct url as [|x url]; [discriminate |]. simpl. rewrite E. split; [discriminate |].
  simpl. rewrite E. simpl. clear. induction url as [|y url IH]; [reflexivity |].
  simpl. destruct (isDigit y) eqn:Ey; [| reflexivity]. simpl. rewrite Ey. exact IH.
Qed.

(** X11. [extractThreadId] takes the first dot that is followed by a digit
    and reads the whole run of digits after it: for a URL made of a part
    [pre] in which no dot is followed by a digit, a dot, a run of digits
    and a rest that does not start with a digit, the id is the number the
    digits write, as long as that number is below [2^53], where every
    integer is a Number. *)
Theorem extractThreadId_reads_first_dotted_number (pre digits rest : jsstr) :
  matchDotDigits (pre ++ [46%N]) = None ->
  digits <> [] ->
  forallb isDigit digits = true ->
  match rest with x :: _ => isDigit x = false | [] => True end ->
  (digitsValue digits < 2 ^ 53)%N ->
  extractThreadId (pre ++ 46%N :: digits ++ rest) = Some (Z.of_N (digitsValue digits)).
Proof.
  intros Hpre Hne Hd Hr Hb. destruct digits as [|d digits]; [congruence |].
  unfold extractThreadId. simpl app.
  rewrite matchDotDigits_after;
    [| exact Hpre | simpl in Hd; apply andb_true_iff in Hd; tauto].
  change (d :: digits ++ rest) with ((d :: digits) ++ rest).
  rewrite takeDigits_run by assumption.
  change (removeFirstDot (46%N :: d :: digits)) with (d :: digits).
  unfold parseInt. rewrite (takeDigits_all _ Hd), (toNumber_exact Hb). reflexivity.
Qed.

Lemma extractThreadId_witness :
  extractThreadId (lit "https://site.example/threads/game-v0.x" ++ 46%N :: lit "12345" ++ lit "/")
  = Some 12345%Z.
Proof.
  apply (@extractThreadId_reads_first_dotted_number
           (lit "https://site.example/threads/game-v0.x") (lit "12345") (lit "/")).
  - reflexivity.
  - discriminate.
  - reflexivity.
  - reflexivity.
  - reflexivity.
Defined.


Section SyncMore.
Context {PF : Platform}.

Lemma existsb_id_In (i : Z) (db : list ThreadInfo.t) :
  existsb (fun t => (ThreadInfo.id t =? i)%Z) db = true <-> In i (map ThreadInfo.id db).
Proof.
  rewrite existsb_exists, in_map_iff. split; intros [t H]; exists t.
  - destruct H as [H E]. apply Z.eqb_eq in E. tauto.
  - destruct H as [E H]. split; [assumption | apply Z.eqb_eq, E].
Qed.

Lemma filter_id_nil (i : Z) (db : list ThreadInfo.t) :
  filter (fun t => (ThreadInfo.id t =? i)%Z) db = [] -> ~ In i (map ThreadInfo.id db).
Proof.
  intros H Hin. apply in_map_iff in Hin. destruct Hin as [t [E Ht]].
  assert (X : In t (filter (fun t => (ThreadInfo.id t =? i)%Z) db)).
  { apply filter_In. split; [assumption | apply Z.eqb_eq, E]. }
  rewrite H in X. exact X.
Qed.

Lemma filter_id_cons (i : Z) (db : list ThreadInfo.t) (t : ThreadInfo.t)
    (rest : list ThreadInfo.t) :
  filter (fun t => (ThreadInfo.id t =? i)%Z) db = t :: rest ->
  In t db /\ ThreadInfo.id t = i.
Proof.
  intros H.
  assert (X : In t (filter (fun t => (ThreadInfo.id t =? i)%Z) db))
    by (rewrite H; left; reflexivity).
  apply filter_In in X. destruct X as [X E]. apply Z.eqb_eq in E. tauto.
Qed.

Lemma upsert_ids (r : ThreadInfo.t) (db : list ThreadInfo.t) :
  map ThreadInfo.id (upsert r db)
  = if existsb (fun t => (ThreadInfo.id t =? ThreadInfo.id r)%Z) db
    then map ThreadInfo.id db
    else map ThreadInfo.id db ++ [ThreadInfo.id r].
Proof.
  unfold upsert. destruct (existsb _ db).
  - rewrite map_map. apply map_ext. intros t.
    destruct (Z.eqb_spec (ThreadInfo.id t) (ThreadInfo.id r)); congruence.
  - rewrite map_app. reflexivity.
Qed.

Lemma filter_upsert_other (r : ThreadInfo.t) (j : Z) (db : list ThreadInfo.t) :
  ThreadInfo.id r <> j ->
  filter (fun t => (ThreadInfo.id t =? j)%Z) (upsert r db)
  = filter (fun t => (ThreadInfo.id t =? j)%Z) db.
Proof.
  intros Hr. apply Z.eqb_neq in Hr. unfold upsert. destruct (existsb _ db).
  - induction db as [|a db IH]; [reflexivity |]. simpl.
    destruct (Z.eqb_spec (ThreadInfo.id a) (ThreadInfo.id r)) as [E | E].
    + rewrite Hr, E, Hr. exact IH.
    + destruct (ThreadInfo.id a =? j)%Z; [f_equal |]; exact IH.
  - rewrite filter_app. simpl. rewrite Hr. apply app_nil_r.
Qed.

Lemma filter_upsert_same (r : ThreadInfo.t) (db : list ThreadInfo.t) :
  exists rest,
    filter (fun t => (ThreadInfo.id t =? ThreadInfo.id r)%Z) (upsert r db) = r :: rest.
Proof.
  unfold upsert. destruct (existsb _ db) eqn:E.
  - induction db as [|a db IH]; [discriminate |]. simpl in E |- *.
    destruct (ThreadInfo.id a =? ThreadInfo.id r)%Z eqn:Ea.
    + simpl. rewrite Z.eqb_refl. eexists. reflexivity.
    + simpl in E. simpl. rewrite Ea. exact (IH E).
  - rewrite filter_app. simpl. rewrite Z.eqb_refl.
    assert (X : filter (fun t => (ThreadInfo.id t =? ThreadInfo.id r)%Z) db = []).
    { destruct (filter _ db) as [|t rest] eqn:F; [reflexivity |].
      apply filter_id_cons in F. destruct F as [Ht Hi].
      assert (Y : existsb (fun t => (ThreadInfo.id t =? ThreadInfo.id r)%Z) db = true).
      { apply existsb_exists. exists t. split; [assumption | apply Z.eqb_eq, Hi]. }
      congruence. }
    rewrite X. exists []. reflexivity.
Qed.

Lemma forEach_invariant (A : Type) (f : A -> Async unit) (I : World -> Prop)
    (l : list A) :
  (forall x w, In x l -> I w -> I (snd (f x w))) ->
  forall w, I w -> I (snd (forEach f l w)).
Proof.
  induction l as [|x l IH]; intros Hf w Hw; simpl.
  - exact Hw.
  - unfold bind. pose proof (Hf x w (or_introl eq_refl) Hw) as H1.
    destruct (f x w) as [[[] | e] w1]; simpl in H1.
    + apply IH; [| exact H1]. intros y w2 Hy. apply Hf. right. exact Hy.
    + exact H1.
Qed.

Section MoreCases.
Variables (url : jsstr) (id : Z) (w : World).
Hypothesis Hid : extractThreadId url = Some id.

Lemma syncThread_absent_throw (e : jsstr) (c : CatalogState) :
  filter (fun t => (ThreadInfo.id t =? id)%Z) (ThreadDB w) = [] ->
  F95_getGameDataFromURL url (F95 w) = (Throw e, c) ->
  syncThread url w
  = (Throw e, {| GameDB := GameDB w; ThreadDB := ThreadDB w; F95 := c;
                 effects := effects w ++ [UrlLookup url] |}).
Proof.
  intros Hs Hf. unfold syncThread. rewrite Hid. unfold bind at 1.
  rewrite ThreadDB_search_id, Hs. unfold bind, getGameDataFromURL. rewrite Hf.
  reflexivity.
Qed.

Lemma syncThread_changed_throw (t : ThreadInfo.t) (rest : list ThreadInfo.t)
    (e : jsstr) (c : CatalogState) :
  filter (fun t => (ThreadInfo.id t =? id)%Z) (ThreadDB w) = t :: rest ->
  ThreadInfo.url t <> url ->
  F95_getGameDataFromURL url (F95 w) = (Throw e, c) ->
  syncThread url w
  = (Throw e, {| GameDB := GameDB w; ThreadDB := ThreadDB w; F95 := c;
                 effects := effects w ++ [UrlLookup url] |}).
Proof.
  intros Hs Hu Hf. unfold syncThread. rewrite Hid. unfold bind at 1.
  rewrite ThreadDB_search_id, Hs. apply streq_false in Hu. rewrite Hu.
  unfold bind, getGameDataFromURL. rewrite Hf. reflexivity.
Qed.

End MoreCases.

Lemma syncThread_no_id (url : jsstr) (w : World) :
  extractThreadId url = None ->
  syncThread url w = (Ok tt, addEffects [LogWarn url] w).
Proof. intros Hid. unfold syncThread. rewrite Hid. reflexivity. Qed.

End SyncMore.

(** The cases of [syncThread], as equations. *)
Ltac sync_cases url w :=
  let id := fresh "id" in
  let Hid := fresh "Hid" in
  let t := fresh "t" in
  let rest := fresh "rest" in
  let Hs := fresh "Hs" in
  let Hu := fresh "Hu" in
  let g := fresh "g" in
  let e := fresh "e" in
  let c := fresh "c" in
  let Hf := fresh "Hf" in
  destruct (extractThreadId url) as [id|] eqn:Hid;
  [ destruct (filter (fun t => (ThreadInfo.id t =? id)%Z) (ThreadDB w))
      as [|t rest] eqn:Hs;
    [ destruct (F95_getGameDataFromURL url (F95 w)) as [[g | e] c] eqn:Hf;
      [ rewrite (@syncThread_absent _ url id w Hid g c Hs Hf)
      | rewrite (@syncThread_absent_throw _ url id w Hid e c Hs Hf) ]
    | destruct (streq (ThreadInfo.url t) url) eqn:Hu;
      [ apply streq_spec in Hu;
        rewrite (@syncThread_unchanged _ url id w Hid t rest Hs Hu)
      | apply streq_false in Hu;
        destruct (F95_getGameDataFromURL url (F95 w)) as [[g | e] c] eqn:Hf;
        [ rewrite (@syncThread_changed _ url id w Hid t rest g c Hs Hu Hf)
        | rewrite (@syncThread_changed_throw _ url id w Hid t rest e c Hs Hu Hf) ] ] ]
  | rewrite (@syncThread_no_id _ url w Hid) ].

Section SyncInvariants.
Context {PF : Platform}.

(** What one URL leaves as it is, whatever the catalogue answers. *)
Lemma syncThread_frame (url : jsstr) (w : World) :
  GameDB (snd (syncThread url w)) = GameDB w
  /\ incl (map ThreadInfo.id (ThreadDB w))
          (map ThreadInfo.id (ThreadDB (snd (syncThread url w)))).
Proof.
  sync_cases url w; simpl; (split; [reflexivity |]); try apply incl_refl.
  - rewrite map_app. apply incl_appl, incl_refl.
  - rewrite upsert_ids. destruct (existsb _ (ThreadDB w));
      [apply incl_refl | apply incl_appl, incl_refl].
Qed.

(** What one URL does to the ids of ThreadStore, when the catalogue
    answers a URL with the thread of the id that the URL carries. *)
Lemma syncThread_ids (url : jsstr) (w : World) :
  (forall id c g c', extractThreadId url = Some id ->
     F95_getGameDataFromURL url c = (Ok g, c') -> ThreadInfo.id (TI_convert g) = id) ->
  GameDB (snd (syncThread url w)) = GameDB w
  /\ incl (map ThreadInfo.id (ThreadDB w)) (map ThreadInfo.id (ThreadDB (snd (syncThread url w))))
  /\ (NoDup (map ThreadInfo.id (ThreadDB w)) ->
      NoDup (map ThreadInfo.id (ThreadDB (snd (syncThread url w)))))
  /\ (forall i, In i (map ThreadInfo.id (ThreadDB (snd (syncThread url w)))) ->
        In i (map ThreadInfo.id (ThreadDB w)) \/ extractThreadId url = Some i).
Proof.
  intros Hc. sync_cases url w; simpl.
  - rewrite map_app. simpl. rewrite (Hc id _ _ _ eq_refl Hf).
    split; [reflexivity |]. split; [apply incl_appl, incl_refl |]. split.
    + intros Hn. apply NoDup_snoc; [assumption | apply filter_id_nil, Hs].
    + intros i Hi. apply in_app_iff in Hi. destruct Hi as [Hi | [<- | []]]; auto.
  - split; [reflexivity |]. split; [apply incl_refl |]. auto.
  - split; [reflexivity |]. split; [apply incl_refl |]. auto.
  - rewrite upsert_ids. simpl. rewrite (Hc id _ _ _ eq_refl Hf).
    apply filter_id_cons in Hs. destruct Hs as [Ht Hi].
    assert (X : existsb (fun t0 => (ThreadInfo.id t0 =? id)%Z) (ThreadDB w) = true).
    { apply existsb_exists. exists t. split; [assumption | apply Z.eqb_eq, Hi]. }
    rewrite X. split; [reflexivity |]. split; [apply incl_refl |]. auto.
  - split; [reflexivity |]. split; [apply incl_refl |]. auto.
  - split; [reflexivity |]. split; [apply incl_refl |]. split; [auto |].
    intros i Hi. left. exact Hi.
Qed.

Lemma synced_addEffects (es : list Effect) (w : World) (url : jsstr) :
  synced w url -> synced (addEffects es w) url.
Proof. intros H. exact H. Qed.

(** A URL that was processed without a throw is in step with its record. *)
Lemma syncThread_synced (url : jsstr) (w : World) :
  (forall id c g c', extractThreadId url = Some id ->
     F95_getGameDataFromURL url c = (Ok g, c') ->
     ThreadInfo.id (TI_convert g) = id /\ ThreadInfo.url (TI_convert g) = url) ->
  fst (syncThread url w) = Ok tt ->
  synced (snd (syncThread url w)) url.
Proof.
  intros Hc. unfold synced. sync_cases url w; simpl; try discriminate; intros _.
  - destruct (Hc id _ _ _ eq_refl Hf) as [Hi Hu].
    rewrite filter_app, Hs. simpl. rewrite Hi, Z.eqb_refl.
    exists (TI_convert g), []. split; [reflexivity | exact Hu].
  - exists t, rest. split; [exact Hs | exact Hu].
  - destruct (Hc id _ _ _ eq_refl Hf) as [Hi Hu'].
    destruct (filter_upsert_same
                (ThreadInfo.set_markedAsRead false
                   (ThreadInfo.set_updateAvailable true (TI_convert g)))
                (ThreadDB w)) as [rest' Hr].
    simpl in Hr. rewrite Hi in Hr.
    eexists. exists rest'. split; [exact Hr | exact Hu'].
  - trivial.
Qed.

(** Processing a URL leaves every other URL in step that was in step, as
    long as the two do not carry the same id. *)
Lemma syncThread_keeps_synced (url v : jsstr) (w : World) :
  (forall id c g c', extractThreadId url = Some id ->
     F95_getGameDataFromURL url c = (Ok g, c') -> ThreadInfo.id (TI_convert g) = id) ->
  (forall i, extractThreadId url = Some i -> extractThreadId v = Some i -> v = url) ->
  synced w v ->
  synced (snd (syncThread url w)) v.
Proof.
  intros Hc Hinj. unfold synced. destruct (extractThreadId v) as [j|] eqn:Hj; [| trivial].
  intros [t0 [rest0 [Hs0 Hu0]]]. sync_cases url w; simpl;
    try (exists t0, rest0; tauto).
  - rewrite filter_app, Hs0. simpl. eexists. eexists. split; [reflexivity | exact Hu0].
  - rewrite filter_upsert_other.
    + exists t0, rest0. tauto.
    + simpl. rewrite (Hc id _ _ _ eq_refl Hf). intros ->.
      assert (E : v = url) by (apply (Hinj j); reflexivity).
      rewrite Hs0 in Hs. inversion Hs; subst t0. congruence.
Qed.

Lemma first_pass_synced (urls : list jsstr) :
  forall (done : list jsstr) (w : World),
  (forall url id c g c', In url urls -> extractThreadId url = Some id ->
     F95_getGameDataFromURL url c = (Ok g, c') ->
     ThreadInfo.id (TI_convert g) = id /\ ThreadInfo.url (TI_convert g) = url) ->
  (forall u v i, In u (done ++ urls) -> In v (done ++ urls) ->
     extractThreadId u = Some i -> extractThreadId v = Some i -> u = v) ->
  (forall v, In v done -> synced w v) ->
  fst (syncDatabaseWatchedThreads urls w) = Ok tt ->
  forall v, In v (done ++ urls) -> synced (snd (syncDatabaseWatchedThreads urls w)) v.
Proof.
  unfold syncDatabaseWatchedThreads.
  induction urls as [|u urls IH]; intros done w Hc Hinj Hd Hok v Hv.
  - rewrite app_nil_r in Hv. simpl. apply Hd, Hv.
  - simpl in Hok |- *. unfold bind in Hok |- *.
    assert (Hcu : forall id c g c', extractThreadId u = Some id ->
              F95_getGameDataFromURL u c = (Ok g, c') ->
              ThreadInfo.id (TI_convert g) = id /\ ThreadInfo.url (TI_convert g) = u).
    { intros id c g c'. apply Hc. left. reflexivity. }
    pose proof (@syncThread_synced u w Hcu) as Hnew.
    assert (Hold : forall x, In x done -> synced (snd (syncThread u w)) x).
    { intros x Hx. apply syncThread_keeps_synced.
      - intros id c g c' Hid Hf. apply (Hcu id c g c' Hid Hf).
      - intros i Hu Hx'. apply (Hinj x u i); auto.
        + apply in_app_iff. left. exact Hx.
        + apply in_app_iff. right. left. reflexivity.
      - apply Hd, Hx. }
    destruct (syncThread u w) as [[[] | e] w1]; simpl in *; [| discriminate].
    apply (IH (done ++ [u]) w1).
    + intros url id c g c' Hin. apply Hc. right. exact Hin.
    + rewrite <- app_assoc. exact Hinj.
    + intros x Hx. apply in_app_iff in Hx. destruct Hx as [Hx | [<- | []]].
      * apply Hold, Hx.
      * apply Hnew. reflexivity.
    + exact Hok.
    + rewrite <- app_assoc. exact Hv.
Qed.

Lemma second_pass_idle (urls : list jsstr) :
  forall w : World,
  (forall v, In v urls -> synced w v) ->
  syncDatabaseWatchedThreads urls w = (Ok tt, addEffects (idWarnings urls) w).
Proof.
  unfold syncDatabaseWatchedThreads, idWarnings.
  induction urls as [|u urls IH]; intros w Hs.
  - simpl. unfold ret. rewrite addEffects_nil. reflexivity.
  - pose proof (Hs u (or_introl eq_refl)) as Hu. unfold synced in Hu.
    simpl. unfold bind.
    destruct (extractThreadId u) as [id|] eqn:Hid.
    + destruct Hu as [t [rest [Hf Hu]]].
      rewrite (@syncThread_unchanged _ u id w Hid t rest Hf Hu). apply IH.
      intros v Hv. apply Hs. right. exact Hv.
    + rewrite (@syncThread_no_id _ u w Hid). rewrite IH.
      * rewrite addEffects_add. reflexivity.
      * intros v Hv. apply synced_addEffects, Hs. right. exact Hv.
Qed.

End SyncInvariants.

(** X12. Whatever the outcome of a pass of [syncDatabaseWatchedThreads],
    also one that a failed request ends, and whatever the catalogue
    answers, LibraryStore is as before and no id leaves ThreadStore. When
    the catalogue answers each URL of the batch with the thread of the id
    that the URL carries, ThreadStore keeps one record per id if it had one
    per id before, and every id it holds afterwards was there before or is
    carried by a URL of the batch. *)
Theorem syncDatabaseWatchedThreads_keeps_one_record_per_id {PF : Platform}
    (urls : list jsstr) (w : World) :
  GameDB (snd (syncDatabaseWatchedThreads urls w)) = GameDB w
  /\ incl (map ThreadInfo.id (ThreadDB w))
          (map ThreadInfo.id (ThreadDB (snd (syncDatabaseWatchedThreads urls w))))
  /\ ((forall url id c g c', In url urls -> extractThreadId url = Some id ->
         F95_getGameDataFromURL url c = (Ok g, c') -> ThreadInfo.id (TI_convert g) = id) ->
      (NoDup (map ThreadInfo.id (ThreadDB w)) ->
       NoDup (map ThreadInfo.id (ThreadDB (snd (syncDatabaseWatchedThreads urls w)))))
      /\ (forall i,
            In i (map ThreadInfo.id (ThreadDB (snd (syncDatabaseWatchedThreads urls w)))) ->
            In i (map ThreadInfo.id (ThreadDB w))
            \/ exists url, In url urls /\ extractThreadId url = Some i)).
Proof.
  unfold syncDatabaseWatchedThreads. split; [| split].
  - apply (@forEach_invariant PF jsstr syncThread (fun w' => GameDB w' = GameDB w) urls);
      [| reflexivity].
    intros url w1 _ Hg. rewrite (proj1 (syncThread_frame url w1)). exact Hg.
  - apply (@forEach_invariant PF jsstr syncThread
             (fun w' => incl (map ThreadInfo.id (ThreadDB w)) (map ThreadInfo.id (ThreadDB w')))
             urls); [| apply incl_refl].
    intros url w1 _ Hi. eapply incl_tran; [exact Hi | apply syncThread_frame].
  - intros Hc. split.
    + intros Hn.
      apply (@forEach_invariant PF jsstr syncThread
               (fun w' => NoDup (map ThreadInfo.id (ThreadDB w'))) urls); [| exact Hn].
      intros url w1 Hin Hd.
      destruct (@syncThread_ids PF url w1) as [_ [_ [Hd' _]]]; [| exact (Hd' Hd)].
      intros id c g c'. apply Hc, Hin.
    + apply (@forEach_invariant PF jsstr syncThread
               (fun w' => forall i, In i (map ThreadInfo.id (ThreadDB w')) ->
                  In i (map ThreadInfo.id (ThreadDB w))
                  \/ exists url, In url urls /\ extractThreadId url = Some i) urls);
        [| auto].
      intros url w1 Hin Hp i Hx.
      destruct (@syncThread_ids PF url w1) as [_ [_ [_ Hp']]].
      { intros id c g c'. apply Hc, Hin. }
      destruct (Hp' i Hx) as [H | H]; [apply Hp, H |].
      right. exists url. tauto.
Qed.

Lemma syncDatabaseWatchedThreads_ids_witness :
  map ThreadInfo.id
      (ThreadDB (snd (@syncDatabaseWatchedThreads (DemoPlatform [u2] []) [u1; u1; u7; u2; u1]
                        (emptyWorld [u2] []))))
  = [1%Z; 7%Z]
  /\ NoDup (map ThreadInfo.id
              (ThreadDB (snd (@syncDatabaseWatchedThreads (DemoPlatform [u2] [])
                                [u1; u1; u7; u2; u1] (emptyWorld [u2] []))))).
Proof.
  split; [reflexivity |].
  destruct (@syncDatabaseWatchedThreads_keeps_one_record_per_id (DemoPlatform [u2] [])
              [u1; u1; u7; u2; u1] (emptyWorld [u2] [])) as [_ [_ H]].
  apply H.
  - intros url id c g c' _ Hid Hf. simpl in Hf.
    destruct (streq url u2 || false); inversion Hf; subst g.
    simpl. rewrite Hid. reflexivity.
  - constructor.
Defined.

(** X13. After a pass of [syncDatabaseWatchedThreads] that ended without a
    throw, a second pass over the same URLs asks the catalogue nothing and
    changes neither store: it only repeats the warning for each URL without
    an id. This holds when the catalogue answers each URL with a thread of
    the id the URL carries and of that very URL, and no two different URLs
    of the batch carry the same id. *)
Theorem syncDatabaseWatchedThreads_second_pass_is_idle {PF : Platform}
    (urls : list jsstr) (w : World) :
  (forall url id c g c', In url urls -> extractThreadId url = Some id ->
     F95_getGameDataFromURL url c = (Ok g, c') ->
     ThreadInfo.id (TI_convert g) = id /\ ThreadInfo.url (TI_convert g) = url) ->
  (forall u v i, In u urls -> In v urls ->
     extractThreadId u = Some i -> extractThreadId v = Some i -> u = v) ->
  fst (syncDatabaseWatchedThreads urls w) = Ok tt ->
  syncDatabaseWatchedThreads urls (snd (syncDatabaseWatchedThreads urls w))
  = (Ok tt, addEffects (idWarnings urls) (snd (syncDatabaseWatchedThreads urls w))).
Proof.
  intros Hc Hinj Hok. apply second_pass_idle.
  intros v Hv. apply (@first_pass_synced PF urls [] w); auto.
  intros x [].
Qed.

Lemma syncDatabaseWatchedThreads_second_pass_witness :
  let urls := [u1; lit "https://site.example/latest"; u7; u1] in
  let w1 := snd (@syncDatabaseWatchedThreads (DemoPlatform [] []) urls (emptyWorld [] [])) in
  @syncDatabaseWatchedThreads (DemoPlatform [] []) urls w1
  = (Ok tt, addEffects [LogWarn (lit "https://site.example/latest")] w1).
Proof.
  intros urls w1.
  apply (@syncDatabaseWatchedThreads_second_pass_is_idle (DemoPlatform [] []) urls
           (emptyWorld [] [])).
  - intros url id c g c' _ Hid Hf. simpl in Hf. inversion Hf; subst g.
    simpl. rewrite Hid. split; reflexivity.
  - intros u v i Hu Hv Eu Ev. simpl in Hu, Hv.
    repeat (destruct Hu as [Hu | Hu]; [subst u |]); try contradiction;
      repeat (destruct Hv as [Hv | Hv]; [subst v |]); try contradiction;
      try reflexivity; vm_compute in Eu, Ev; congruence.
  - reflexivity.
Defined.


Section FeedAfterSync.
Context {PF : Platform}.

Lemma getUpdatedThreads_run (w : World) :
  getUpdatedThreads w
  = (Ok (filter (notInstalled w)
           (sortByName (filter (matchesThread updatedFilter) (ThreadDB w)))), w).
Proof.
  unfold getUpdatedThreads, bind, ThreadDB_search. rewrite excludeInstalled_run.
  reflexivity.
Qed.

Lemma upsert_other (r t : ThreadInfo.t) (db : list ThreadInfo.t) :
  ThreadInfo.id t <> ThreadInfo.id r -> (In t (upsert r db) <-> In t db).
Proof.
  intros Hn. unfold upsert. destruct (existsb _ db).
  - rewrite in_map_iff. split.
    + intros [x [E Hx]].
      destruct (Z.eqb_spec (ThreadInfo.id x) (ThreadInfo.id r)); congruence.
    + intros Ht. exists t. apply Z.eqb_neq in Hn. rewrite Hn. tauto.
  - rewrite in_app_iff. simpl. split; [| tauto].
    intros [H | [H | []]]; [assumption | congruence].
Qed.

(** The records of an id are not touched by a URL that carries another
    id, or none. *)
Lemma syncThread_other_id (url : jsstr) (i : Z) (w : World) :
  (forall id c g c', extractThreadId url = Some id ->
     F95_getGameDataFromURL url c = (Ok g, c') -> ThreadInfo.id (TI_convert g) = id) ->
  extractThreadId url <> Some i ->
  filter (fun t => (ThreadInfo.id t =? i)%Z) (ThreadDB (snd (syncThread url w)))
  = filter (fun t => (ThreadInfo.id t =? i)%Z) (ThreadDB w).
Proof.
  intros Hc Hn. sync_cases url w; simpl; try reflexivity.
  - rewrite filter_app. simpl. rewrite (Hc id _ _ _ eq_refl Hf).
    assert (E : (id =? i)%Z = false) by (apply Z.eqb_neq; congruence).
    rewrite E. apply app_nil_r.
  - apply filter_upsert_other. simpl. rewrite (Hc id _ _ _ eq_refl Hf). congruence.
Qed.

(** A record that was found under another URL is written back with an
    update that is not marked as read. *)
Lemma syncThread_moved (url : jsstr) (i : Z) (w : World)
    (t : ThreadInfo.t) (rest : list ThreadInfo.t) :
  (forall id c g c', extractThreadId url = Some id ->
     F95_getGameDataFromURL url c = (Ok g, c') -> ThreadInfo.id (TI_convert g) = id) ->
  extractThreadId url = Some i ->
  filter (fun t => (ThreadInfo.id t =? i)%Z) (ThreadDB w) = t :: rest ->
  ThreadInfo.url t <> url ->
  fst (syncThread url w) = Ok tt ->
  pending (snd (syncThread url w)) i.
Proof.
  intros Hc Hi Hs Hu.
  destruct (F95_getGameDataFromURL url (F95 w)) as [[g | e] c] eqn:Hf.
  - rewrite (@syncThread_changed _ url i w Hi t rest g c Hs Hu Hf). simpl. intros _.
    pose proof (Hc i _ _ _ Hi Hf) as Hg. split.
    + eexists. split; [apply upsert_In |]. simpl. exact Hg.
    + intros x Hx Ex. apply upsert_same_id in Hx; [| simpl; congruence].
      subst x. split; reflexivity.
  - rewrite (@syncThread_changed_throw _ url i w Hi t rest e c Hs Hu Hf). discriminate.
Qed.

(** Once the records of an id have a pending update, no URL of the rest
    of the batch takes it back. *)
Lemma syncThread_keeps_pending (url : jsstr) (i : Z) (w : World) :
  (forall id c g c', extractThreadId url = Some id ->
     F95_getGameDataFromURL url c = (Ok g, c') -> ThreadInfo.id (TI_convert g) = id) ->
  pending w i ->
  pending (snd (syncThread url w)) i.
Proof.
  intros Hc [[t0 [Ht0 Ei]] Hall]. sync_cases url w; simpl;
    try (split; [exists t0; tauto | exact Hall]).
  - assert (Hn : id <> i).
    { intros ->. apply (filter_id_nil _ _ Hs). rewrite <- Ei. apply in_map, Ht0. }
    split.
    + exists t0. split; [apply in_app_iff; tauto | assumption].
    + intros x Hx Ex. apply in_app_iff in Hx. destruct Hx as [Hx | [<- | []]].
      * apply Hall; assumption.
      * rewrite (Hc id _ _ _ eq_refl Hf) in Ex. congruence.
  - pose proof (Hc id _ _ _ eq_refl Hf) as Hg.
    destruct (Z.eq_dec id i) as [-> | Hn].
    + split.
      * eexists. split; [apply upsert_In |]. simpl. exact Hg.
      * intros x Hx Ex. apply upsert_same_id in Hx; [| simpl; congruence].
        subst x. split; reflexivity.
    + split.
      * exists t0. split; [| assumption]. apply upsert_other; [simpl; congruence | assumption].
      * intros x Hx Ex. apply upsert_other in Hx; [| simpl; congruence].
        apply Hall; assumption.
Qed.

Lemma feed_shows_pending (w : World) (i : Z) :
  pending w i ->
  (In i (map ThreadInfo.id
           (filter (notInstalled w)
              (sortByName (filter (matchesThread updatedFilter) (ThreadDB w)))))
   <-> ~ In i (map GameInfoExtended.id (GameDB w))).
Proof.
  intros [[t0 [Ht0 Ei]] Hall]. rewrite in_map_iff. split.
  - intros [t [Et Ht]]. apply filter_In in Ht. destruct Ht as [_ Hn].
    apply notInstalled_spec in Hn. congruence.
  - intros Hn. exists t0. split; [assumption |].
    apply filter_In. split.
    + unfold sortByName. apply stableSort_In. apply filter_In. split; [assumption |].
      apply updatedFilter_matches. apply Hall; assumption.
    + apply notInstalled_spec. congruence.
Qed.

End FeedAfterSync.

(** X14. [updatedThreads] shows a watched thread that moved. Let a URL of
    the batch carry an id that no URL before it in the batch carries, let
    ThreadStore hold a record of this id under another URL, and let the
    catalogue answer each URL with the thread of the id that the URL
    carries. If the pass ends without a throw, the list handed on has a
    thread of this id exactly when LibraryStore has no record of the id. *)
Theorem updatedThreads_shows_a_moved_thread {PF : Platform}
    (before after : list jsstr) (url : jsstr) (i : Z) (w : World)
    (t : ThreadInfo.t) (rest : list ThreadInfo.t) :
  (forall u id c g c', In u (before ++ url :: after) -> extractThreadId u = Some id ->
     F95_getGameDataFromURL u c = (Ok g, c') -> ThreadInfo.id (TI_convert g) = id) ->
  (forall u, In u before -> extractThreadId u <> Some i) ->
  extractThreadId url = Some i ->
  filter (fun t => (ThreadInfo.id t =? i)%Z) (ThreadDB w) = t :: rest ->
  ThreadInfo.url t <> url ->
  fst (syncDatabaseWatchedThreads (before ++ url :: after) w) = Ok tt ->
  exists shown,
    fst (updatedThreads (before ++ url :: after) w) = Ok shown
    /\ (In i (map ThreadInfo.id shown) <-> ~ In i (map GameInfoExtended.id (GameDB w))).
Proof.
  intros Hc Hb Hi Hs Hu Hok.
  assert (Hp : pending (snd (syncDatabaseWatchedThreads (before ++ url :: after) w)) i
               /\ GameDB (snd (syncDatabaseWatchedThreads (before ++ url :: after) w))
                  = GameDB w).
  { unfold syncDatabaseWatchedThreads in *. rewrite forEach_app in Hok |- *.
    assert (H1 : filter (fun t => (ThreadInfo.id t =? i)%Z)
                   (ThreadDB (snd (forEach syncThread before w))) = t :: rest
                 /\ GameDB (snd (forEach syncThread before w)) = GameDB w).
    { apply (@forEach_invariant PF jsstr syncThread
               (fun w' => filter (fun t => (ThreadInfo.id t =? i)%Z) (ThreadDB w') = t :: rest
                          /\ GameDB w' = GameDB w) before).
      - intros u w1 Hin [Hf Hg].
        assert (Hcu : forall id c g c', extractThreadId u = Some id ->
                  F95_getGameDataFromURL u c = (Ok g, c') ->
                  ThreadInfo.id (TI_convert g) = id).
        { intros id c g c'. apply Hc. apply in_app_iff. left. exact Hin. }
        split.
        + rewrite (@syncThread_other_id PF u i w1 Hcu (Hb u Hin)). exact Hf.
        + destruct (@syncThread_ids PF u w1 Hcu) as [Hg' _]. congruence.
      - split; [exact Hs | reflexivity]. }
    destruct (forEach syncThread before w) as [[[] | e] w1]; simpl in H1, Hok;
      [| discriminate].
    destruct H1 as [Hs1 Hg1]. simpl in Hok |- *. unfold bind in Hok |- *.
    assert (Hcu : forall id c g c', extractThreadId url = Some id ->
              F95_getGameDataFromURL url c = (Ok g, c') ->
              ThreadInfo.id (TI_convert g) = id).
    { intros id c g c'. apply Hc. apply in_app_iff. right. left. reflexivity. }
    pose proof (@syncThread_moved PF url i w1 t rest Hcu Hi Hs1 Hu) as Hm.
    destruct (@syncThread_ids PF url w1 Hcu) as [Hg2 _].
    destruct (syncThread url w1) as [[[] | e] w2]; simpl in Hm, Hg2, Hok;
      [| discriminate].
    apply (@forEach_invariant PF jsstr syncThread
             (fun w' => pending w' i /\ GameDB w' = GameDB w) after).
    - intros u w3 Hin [Hp Hg].
      assert (Hcv : forall id c g c', extractThreadId u = Some id ->
                F95_getGameDataFromURL u c = (Ok g, c') ->
                ThreadInfo.id (TI_convert g) = id).
      { intros id c g c'. apply Hc. apply in_app_iff. right. right. exact Hin. }
      split.
      + apply syncThread_keeps_pending; assumption.
      + destruct (@syncThread_ids PF u w3 Hcv) as [Hg' _]. congruence.
    - split; [apply Hm; reflexivity | congruence]. }
  destruct Hp as [Hp Hg]. unfold updatedThreads, bind.
  destruct (syncDatabaseWatchedThreads (before ++ url :: after) w) as [[[] | e] w'];
    simpl in Hok, Hp, Hg; [| discriminate].
  rewrite getUpdatedThreads_run. simpl. eexists. split; [reflexivity |].
  rewrite <- Hg. apply feed_shows_pending, Hp.
Qed.


Lemma updatedThreads_moved_witness :
  exists shown,
    fst (@updatedThreads (DemoPlatform [] []) ([u2] ++ u1 :: [u7]) watchedWorld) = Ok shown
    /\ (In 1%Z (map ThreadInfo.id shown)
        <-> ~ In 1%Z (map GameInfoExtended.id (GameDB watchedWorld))).
Proof.
  apply (@updatedThreads_shows_a_moved_thread (DemoPlatform [] []) [u2] [u7] u1 1%Z
           watchedWorld
           (demoThread (demoInfo (lit "https://site.example/threads/one-old.1/"))) []).
  - intros u id c g c' _ Hid Hf. simpl in Hf. inversion Hf; subst g.
    simpl. rewrite Hid. reflexivity.
  - intros u [<- | []]. vm_compute. discriminate.
  - reflexivity.
  - reflexivity.
  - vm_compute. discriminate.
  - reflexivity.
Defined.
